(** * Text cleaning and permutation importance

    A shallow embedding of the two pieces of logic that the notebooks of
    this repository define themselves:

    - [clean], the sentence normaliser of
      [C3_W2_Lab_1_cleaning_text.py] (lines 330-338), defined a second
      time in [C3_W2_Lab_2_bioc_and_negbio.py] (lines 126-134);
    - the permutation feature importance of
      [C3_W3_Lab_1_permutation_method.py] (lines 157-179).

    A Python [str] is a sequence of code points.  Here a character is an
    [ascii], read as a code point in the range U+0000..U+00FF, and a
    string is a [list ascii].  On that range [str.lower] maps one
    character to one character and stays inside the range, so the
    embedding is closed under every step of [clean]. *)

From Stdlib Require Import Ascii String List Bool Arith Lia NArith QArith Qabs.
From Stdlib Require Import ZArith DecimalString DecimalNat Permutation Field.
Import ListNotations.

Local Close Scope Q_scope.
Local Open Scope nat_scope.
Local Open Scope list_scope.
Local Open Scope char_scope.

(** ** Strings *)

Definition pystr : Type := list ascii.

(** String literals, written as in the source. *)
Definition str (s : string) : pystr := list_ascii_of_string s.

(** ** Character classes *)

(** [str.lower] on one code point of U+0000..U+00FF: [A-Z] and the
    Latin-1 capitals U+00C0..U+00DE (without the multiplication sign
    U+00D7) move up by 32, everything else is kept. *)
Definition lower_char (c : ascii) : ascii :=
  let n := N_of_ascii c in
  if ((65 <=? n) && (n <=? 90)
      || (192 <=? n) && (n <=? 222) && negb (n =? 215))%N
  then ascii_of_N (n + 32)
  else c.

(** The whitespace of [str.split()] and [str.isspace] below U+0100:
    TAB, LF, VT, FF, CR, the separators U+001C..U+001F, the space,
    NEL (U+0085) and the no-break space (U+00A0). *)
Definition isspace (c : ascii) : bool :=
  let n := N_of_ascii c in
  ((9 <=? n) && (n <=? 13) || (28 <=? n) && (n <=? 32)
   || (n =? 133) || (n =? 160))%N.

(** The regular-expression class [[a-zA-Z]]. *)
Definition is_letter (c : ascii) : bool :=
  let n := N_of_ascii c in
  ((97 <=? n) && (n <=? 122) || (65 <=? n) && (n <=? 90))%N.

(** [str.isalpha] on one code point of U+0000..U+00FF, the letters of
    Unicode there: [A-Z], [a-z], U+00AA, U+00B5, U+00BA, U+00C0..U+00D6,
    U+00D8..U+00F6 and U+00F8..U+00FF. *)
Definition isalpha (c : ascii) : bool :=
  let n := N_of_ascii c in
  ((65 <=? n) && (n <=? 90) || (97 <=? n) && (n <=? 122)
   || (n =? 170) || (n =? 181) || (n =? 186)
   || (192 <=? n) && (n <=? 214) || (216 <=? n) && (n <=? 246)
   || (248 <=? n) && (n <=? 255))%N.

(** U+00E9, the letter e with acute accent. *)
Definition e_acute : ascii := ascii_of_N 233.

Definition is_period (c : ascii) : bool := Ascii.eqb c ".".

(** The keys of the translation table: the characters of [".,"]. *)
Definition is_punct (c : ascii) : bool := Ascii.eqb c "." || Ascii.eqb c ",".

(** ** Library operations used by [clean] *)

(** [str.lower]. *)
Definition lower (s : pystr) : pystr := map lower_char s.

(** [str.startswith]. *)
Fixpoint starts_with (p s : pystr) : bool :=
  match p, s with
  | [], _ => true
  | _ :: _, [] => false
  | a :: p', b :: s' => Ascii.eqb a b && starts_with p' s'
  end.

(** [str.endswith]. *)
Definition ends_with (p s : pystr) : bool := starts_with (rev p) (rev s).

(** Left-to-right replacement of the non-overlapping occurrences of a
    non-empty [old]: at an occurrence the replacement is emitted and the
    scan resumes behind the occurrence ([skip] counts the characters of
    the occurrence still to be passed over). *)
Fixpoint replace_from (skip : nat) (old new s : pystr) : pystr :=
  match s with
  | [] => []
  | c :: t =>
      match skip with
      | S k => replace_from k old new t
      | O =>
          if starts_with old s
          then new ++ replace_from (length old - 1) old new t
          else c :: replace_from 0 old new t
      end
  end.

(** [str.replace(old, new)].  With an empty [old], Python puts [new]
    before every character and at the end. *)
Definition replace (old new s : pystr) : pystr :=
  match old with
  | [] => new ++ flat_map (fun c => c :: new) s
  | _ :: _ => replace_from 0 old new s
  end.

(** [re.sub('and/or', 'or', s)]: the pattern has no metacharacter and the
    replacement no escape, so this is the replacement of a literal. *)
Definition re_sub_and_or (s : pystr) : pystr :=
  replace (str "and/or") (str "or") s.

Definition opt_is (P : ascii -> bool) (o : option ascii) : bool :=
  match o with
  | Some c => P c
  | None => false
  end.

(** What [re.sub('(?<=[a-zA-Z])/(?=[a-zA-Z])', ' or ', _)] emits for the
    character [c] of the subject, given the character before it and the
    character after it in the subject. *)
Definition slash_emit (prev : option ascii) (c : ascii) (next : option ascii)
  : pystr :=
  if Ascii.eqb c "/" && opt_is is_letter prev && opt_is is_letter next
  then str " or "
  else [c].

(** The scan of that substitution; [prev] is the character of the
    subject before the current position.  The look-behind and the
    look-ahead read the subject, never the output, and consume nothing. *)
Fixpoint re_sub_slash_from (prev : option ascii) (s : pystr) : pystr :=
  match s with
  | [] => []
  | c :: t => slash_emit prev c (hd_error t) ++ re_sub_slash_from (Some c) t
  end.

Definition re_sub_slash (s : pystr) : pystr := re_sub_slash_from None s.

(** A translation table, as [str.maketrans] builds it from a dictionary:
    code point to replacement string. *)
Definition table : Type := list (ascii * pystr).

Fixpoint table_get (tbl : table) (c : ascii) : option pystr :=
  match tbl with
  | [] => None
  | (k, v) :: rest => if Ascii.eqb k c then Some v else table_get rest c
  end.

(** [str.translate]: a character found in the table is replaced by its
    entry, any other character is kept. *)
Definition translate (tbl : table) (s : pystr) : pystr :=
  flat_map (fun c => match table_get tbl c with
                     | Some v => v
                     | None => [c]
                     end) s.

(** [str.split()] without argument: the maximal runs of characters that
    are not whitespace, in order; no empty string is produced. *)
Fixpoint split (s : pystr) : list pystr :=
  match s with
  | [] => []
  | c :: t =>
      if isspace c then split t
      else match t with
           | [] => [[c]]
           | d :: _ =>
               if isspace d then [c] :: split t
               else match split t with
                    | w :: ws => (c :: w) :: ws
                    | [] => [[c]]
                    end
           end
  end.

(** [sep.join(words)]. *)
Fixpoint join (sep : pystr) (words : list pystr) : pystr :=
  match words with
  | [] => []
  | w :: rest =>
      match rest with
      | [] => w
      | _ :: _ => w ++ sep ++ join sep rest
      end
  end.

(** Exceptions of the operations above that can be raised on a [str]. *)
Inductive exn : Type :=
| ValueError.

Inductive result (A : Type) : Type :=
| Returned (a : A)
| Raised (e : exn).
Arguments Returned {A} a.
Arguments Raised {A} e.

Definition bind {A B : Type} (r : result A) (k : A -> result B) : result B :=
  match r with
  | Returned a => k a
  | Raised e => Raised e
  end.

(** [str.maketrans(d)] for a dictionary with string keys: every key must
    be one character long, otherwise [ValueError] is raised. *)
Fixpoint maketrans (d : list (pystr * pystr)) : result table :=
  match d with
  | [] => Returned []
  | (k, v) :: rest =>
      match k with
      | [c] => bind (maketrans rest) (fun tbl => Returned ((c, v) :: tbl))
      | _ => Raised ValueError
      end
  end.

(** The dictionary [{key: f"{key} " for key in ".,"}]. *)
Definition punctuation_dict : list (pystr * pystr) :=
  map (fun key => ([key], [key; " "])) (str ".,").

(** ** [clean], text-cleaning notebook *)

Module CleaningText.

(** The table [str.maketrans] returns for [punctuation_dict]. *)
Definition punctuation_spacer : table := [(".", str ". "); (",", str ", ")].

Definition clean (sentence : pystr) : pystr :=
  let lower_sentence := lower sentence in
  let corrected_sentence := re_sub_and_or lower_sentence in
  let corrected_sentence := re_sub_slash corrected_sentence in
  let clean_sentence := replace (str "..") (str ".") corrected_sentence in
  let clean_sentence := translate punctuation_spacer clean_sentence in
  let clean_sentence := join (str " ") (split clean_sentence) in
  clean_sentence.

(** The same body with the one step that can raise kept fallible. *)
Definition clean_run (sentence : pystr) : result pystr :=
  let lower_sentence := lower sentence in
  let corrected_sentence := re_sub_and_or lower_sentence in
  let corrected_sentence := re_sub_slash corrected_sentence in
  let clean_sentence := replace (str "..") (str ".") corrected_sentence in
  bind (maketrans punctuation_dict) (fun punctuation_spacer =>
  let clean_sentence := translate punctuation_spacer clean_sentence in
  let clean_sentence := join (str " ") (split clean_sentence) in
  Returned clean_sentence).

End CleaningText.

(** ** [clean], BioC/NegBio notebook *)

Module BiocNegbio.

Definition punctuation_spacer : table := [(".", str ". "); (",", str ", ")].

Definition clean (sentence : pystr) : pystr :=
  let lower_sentence := lower sentence in
  let corrected_sentence := re_sub_and_or lower_sentence in
  let corrected_sentence := re_sub_slash corrected_sentence in
  let clean_sentence := replace (str "..") (str ".") corrected_sentence in
  let clean_sentence := translate punctuation_spacer clean_sentence in
  let clean_sentence := join (str " ") (split clean_sentence) in
  clean_sentence.

End BiocNegbio.

Import CleaningText.

(** ** Permutation importance *)

(** [perf_x = 1/n * sum perf_i]. *)
Definition mean (l : list Q) : Q :=
  (fold_right Qplus 0 l / inject_Z (Z.of_nat (length l)))%Q.

(** [I_x = |perf - perf_x|]. *)
Definition importance (perf : Q) (perf_shuffled : list Q) : Q :=
  Qabs (perf - mean perf_shuffled)%Q.

(** The concordance indices of the notebook's table. *)
Definition baseline_cindex : Q := (8182 # 10000)%Q.
Definition permuted_cindex : list Q :=
  [6749 # 10000; 6554 # 10000; 6428 # 10000]%Q.

(** ** The steps of [clean] by name *)

Definition and_or : pystr := str "and/or".

(** The step [replace("..", ".")]. *)
Abbreviation squeeze := (replace (str "..") (str ".")).

(** The step [' '.join(_.split())]. *)
Definition joined (s : pystr) : pystr := join (str " ") (split s).

(** The value of [clean_sentence] before the whitespace step. *)
Definition spaced (s : pystr) : pystr :=
  translate punctuation_spacer
    (squeeze (re_sub_slash (re_sub_and_or (lower s)))).

(** ** Predicates used in the statements *)

(** The first, respectively last, character exists and satisfies [P]. *)
Definition first_is (P : ascii -> bool) (s : pystr) : bool :=
  opt_is P (hd_error s).

Definition last_is (P : ascii -> bool) (s : pystr) : bool :=
  first_is P (rev s).

Definition has_nonspace (s : pystr) : bool :=
  existsb (fun c => negb (isspace c)) s.

Definition count_char (c : ascii) (s : pystr) : nat :=
  count_occ ascii_dec s c.

(** [p] occurs in [s] as a substring. *)
Fixpoint occurs (p s : pystr) : bool :=
  match s with
  | [] => starts_with p []
  | _ :: t => starts_with p s || occurs p t
  end.

(** No slash of [s] stands between two letters; [prev] is the character
    before [s]. *)
Fixpoint no_letter_slash_from (prev : option ascii) (s : pystr) : bool :=
  match s with
  | [] => true
  | c :: t =>
      negb (Ascii.eqb c "/" && opt_is is_letter prev
            && opt_is is_letter (hd_error t))
      && no_letter_slash_from (Some c) t
  end.

Definition no_letter_slash (s : pystr) : bool := no_letter_slash_from None s.

(** Every period and comma is immediately followed by a space. *)
Definition punct_spaced (s : pystr) : Prop :=
  forall i c, nth_error s i = Some c -> is_punct c = true ->
              nth_error s (S i) = Some " ".

(** Every period and comma is immediately followed by a space, or is the
    last character. *)
Definition punct_spaced_or_last (s : pystr) : Prop :=
  forall i c, nth_error s i = Some c -> is_punct c = true ->
              nth_error s (S i) = Some " " \/ nth_error s (S i) = None.

Fixpoint punct_ok (s : pystr) : bool :=
  match s with
  | [] => true
  | c :: t =>
      (negb (is_punct c) || match t with
                            | [] => true
                            | d :: _ => Ascii.eqb d " "
                            end)
      && punct_ok t
  end.

(** Every period and comma has a whitespace character behind it. *)
Fixpoint punct_gap (s : pystr) : bool :=
  match s with
  | [] => true
  | c :: t => (negb (is_punct c) || first_is isspace t) && punct_gap t
  end.

(** Whitespace normal form: no whitespace at either end, no whitespace
    character but the space, no two whitespace characters in a row. *)
Definition ws_normal_form (s : pystr) : Prop :=
  first_is isspace s = false
  /\ last_is isspace s = false
  /\ (forall c, In c s -> isspace c = true -> c = " ")
  /\ (forall i c d, nth_error s i = Some c -> nth_error s (S i) = Some d ->
                    isspace c && isspace d = false).

(** Every whitespace character of [s] is a space that has a character
    other than whitespace behind it. *)
Fixpoint spaces_single (s : pystr) : bool :=
  match s with
  | [] => true
  | c :: t =>
      (negb (isspace c)
       || Ascii.eqb c " " && first_is (fun d => negb (isspace d)) t)
      && spaces_single t
  end.

(** Two cleaned pieces put side by side with one space, where both are
    present. *)
Definition glue (a b : pystr) : pystr :=
  match a, b with
  | [], _ => b
  | _, [] => a
  | _, _ => a ++ " " :: b
  end.

(** ** Dictionaries *)

(** [==] on [str]. *)
Fixpoint str_eqb (a b : pystr) : bool :=
  match a, b with
  | [], [] => true
  | x :: a', y :: b' => Ascii.eqb x y && str_eqb a' b'
  | _, _ => false
  end.

(** [d.get(k)], the dictionary kept as the list of its items in
    insertion order. *)
Fixpoint dict_get {V : Type} (k : pystr) (d : list (pystr * V)) : option V :=
  match d with
  | [] => None
  | (k', v) :: rest => if str_eqb k' k then Some v else dict_get k rest
  end.

(** [d[k] = v]: the value of a key that is present is overwritten in
    place, a new key goes to the end. *)
Fixpoint dict_set {V : Type} (k : pystr) (v : V) (d : list (pystr * V))
  : list (pystr * V) :=
  match d with
  | [] => [(k, v)]
  | (k', v') :: rest =>
      if str_eqb k' k then (k', v) :: rest else (k', v') :: dict_set k v rest
  end.

(** A key that [str.maketrans] accepts: a string of length one. *)
Definition one_char_key {V : Type} (item : pystr * V) : bool :=
  Nat.eqb (length (fst item)) 1.

(** [s.translate(str.maketrans(d))]. *)
Definition translate_with (tbl : result table) (s : pystr) : result pystr :=
  bind tbl (fun tbl => Returned (translate tbl s)).

Definition nonspace (c : ascii) : bool := negb (isspace c).

(** A word as [str.split()] returns it: not empty, no whitespace. *)
Definition is_word (w : pystr) : bool :=
  negb (Nat.eqb (length w) 0) && forallb nonspace w.

(** ** Building the BioC collection *)

(** [str(i)] for a position [i]: its decimal digits. *)
Definition str_of_nat (i : nat) : pystr :=
  str (NilEmpty.string_of_uint (Nat.to_uint i)).

Section BioC.

(** The documents of [bioc] and the two library calls of the loops,
    [text2bioc.text2document(id, text)] and [splitter.split_doc]. *)
Variable Document : Type.
Variable text2document : pystr -> pystr -> Document.
Variable split_doc : Document -> Document.

(** The loop of the first cells, from position [i] on, with the
    documents added to the collection so far. *)
Fixpoint add_reports (i : nat) (reports : list pystr)
  (documents : list Document) : list Document :=
  match reports with
  | [] => documents
  | report :: rest =>
      let document := text2document (str_of_nat i) report in
      let document := split_doc document in
      add_reports (S i) rest (documents ++ [document])
  end.

(** The loop of [get_bioc_collection], which cleans each report. *)
Fixpoint add_clean_reports (i : nat) (reports : list pystr)
  (documents : list Document) : list Document :=
  match reports with
  | [] => documents
  | report :: rest =>
      let document := text2document (str_of_nat i) (clean report) in
      let document := split_doc document in
      add_clean_reports (S i) rest (documents ++ [document])
  end.

(** The documents of the collection [get_bioc_collection(df)] returns;
    [df] stands for the column [df["Report Impression"]]. *)
Definition get_bioc_collection (df : list pystr) : list Document :=
  add_clean_reports 0 df [].

End BioC.

(** ** Concordance index *)

(** [cindex] is imported from [util], which is not among the sources; it
    is modelled from the formula the permutation notebook states for it:

      cindex = (concordant + 0.5 * ties) / permissible

    over pairs of patients, where a permissible pair has different
    outcomes, a concordant pair is a permissible pair in which the
    patient with the higher risk score has the worse outcome, and a tie
    is a permissible pair with the same risk score.  A patient is a pair
    (outcome, risk score), a row of [y.values] with its entry of
    [scores]; the worse outcome is the greater one (1, the event). *)
Definition Qlt_bool (a b : Q) : bool := negb (Qle_bool b a).

Definition permissible (a b : Z * Q) : bool := negb (fst a =? fst b)%Z.

Definition concordant (a b : Z * Q) : bool :=
  permissible a b
  && (Qlt_bool (snd a) (snd b) && (fst a <? fst b)%Z
      || Qlt_bool (snd b) (snd a) && (fst b <? fst a)%Z).

Definition risk_tie (a b : Z * Q) : bool :=
  permissible a b && Qeq_bool (snd a) (snd b).

(** The number of pairs of two different patients that satisfy [f]. *)
Fixpoint count_pairs (f : Z * Q -> Z * Q -> bool) (patients : list (Z * Q))
  : nat :=
  match patients with
  | [] => 0
  | a :: rest => length (filter (f a) rest) + count_pairs f rest
  end.

Definition Qnat (n : nat) : Q := inject_Z (Z.of_nat n).

(** [None] stands for the division by zero when no pair is permissible. *)
Definition cindex (patients : list (Z * Q)) : option Q :=
  let permissible_pairs := count_pairs permissible patients in
  if Nat.eqb permissible_pairs 0 then None
  else Some ((Qnat (count_pairs concordant patients)
              + (1 # 2) * Qnat (count_pairs risk_tie patients))
             / Qnat permissible_pairs)%Q.

(** The same patients with the sign of every risk score changed. *)
Definition opposite_risk (a : Z * Q) : Z * Q := (fst a, (- snd a)%Q).

(** ** The table of NegBio labels *)

(** The inner loop of the last cells of the BioC/NegBio notebook,
    [dictionary[key[9:]] = val] for the items of [doc.infons]. *)
Definition infons_dictionary (infons : list (pystr * pystr))
  : list (pystr * pystr) :=
  fold_left
    (fun dictionary item => dict_set (skipn 9 (fst item)) (snd item) dictionary)
    infons [].

(** The keys of a dictionary are pairwise different. *)
Fixpoint unique_keys (d : list (pystr * pystr)) : bool :=
  match d with
  | [] => true
  | (k, _) :: rest =>
      negb (existsb (fun item => str_eqb (fst item) k) rest)
      && unique_keys rest
  end.

(** A cell of the data frame: missing, a string, or a boolean. *)
Inductive cell : Type :=
| NaN
| Text (s : pystr)
| Flag (b : bool).

(** The cell that [negbio_pred.append(dictionary, ignore_index=True)]
    puts in the row of a document for a column: the value of the
    dictionary, or NaN where the dictionary has no such key. *)
Definition appended_cell (dictionary : list (pystr * pystr)) (column : pystr)
  : cell :=
  match dict_get column dictionary with
  | Some val => Text val
  | None => NaN
  end.

(** [DataFrame.replace(to_replace, value)] and [DataFrame.fillna(value)]
    on one cell. *)
Definition replace_cell (to_replace : pystr) (value : bool) (c : cell) : cell :=
  match c with
  | Text s => if str_eqb s to_replace then Flag value else c
  | _ => c
  end.

Definition fillna_cell (value : bool) (c : cell) : cell :=
  match c with
  | NaN => Flag value
  | _ => c
  end.

(** The document has a label under the column: the column is a key of
    its dictionary. *)
Definition carries (column : pystr) (infons : list (pystr * pystr)) : bool :=
  match dict_get column (infons_dictionary infons) with
  | Some _ => true
  | None => false
  end.

(** The cell of [negbio_pred], row [i] and column [column], after
    [.replace("Positive", True).replace("Negative", False)
     .replace("Uncertain", False).fillna(False)]; [collection] holds the
    infons of the documents, one row is appended per document.  The
    frame has the columns that the dictionary of some document has as a
    key: for another column, and for a row that is not there, the lookup
    fails ([None]). *)
Definition negbio_pred_cell (collection : list (list (pystr * pystr)))
  (i : nat) (column : pystr) : option cell :=
  if existsb (carries column) collection
  then match nth_error collection i with
       | Some infons =>
           Some
             (fillna_cell false
                (replace_cell (str "Uncertain") false
                   (replace_cell (str "Negative") false
                      (replace_cell (str "Positive") true
                         (appended_cell (infons_dictionary infons) column)))))
       | None => None
       end
  else None.

(** Every document's infons have pairwise different keys that start
    with [pre]. *)
Definition prefixed_infons (pre : pystr)
  (collection : list (list (pystr * pystr))) : bool :=
  forallb (fun infons =>
             unique_keys infons
             && forallb (fun item => starts_with pre (fst item)) infons)
          collection.

(** ** Input for the text classifier *)

Definition classification_token : pystr := str "[CLS]".
Definition separator_token : pystr := str "[SEP]".

(** The token list of the notebook: [tokens = []], then
    [append(classification_token)], [extend(q_tokens)],
    [append(separator_token)], [extend(p_tokens)]. *)
Definition combine_tokens (q_tokens p_tokens : list pystr) : list pystr :=
  let tokens := [] in
  let tokens := tokens ++ [classification_token] in
  let tokens := tokens ++ q_tokens in
  let tokens := tokens ++ [separator_token] in
  let tokens := tokens ++ p_tokens in
  tokens.

(** The slice [s[-n:]]; with [n = 0] it is [s[0:]], the whole list. *)
Definition slice_last (n : nat) (s : list Z) : list Z :=
  if Nat.eqb n 0 then s else skipn (length s - n) s.

(** An id as the int32 array of [pad_sequences] stores it,
    [np.asarray(_, dtype='int32')] in the NumPy 1 series that the
    notebook's TensorFlow and pandas work with: an id that does not fit
    in 64 bits raises [OverflowError] ([None]), any other id is kept
    modulo 2^32, in the range -2^31 .. 2^31 - 1.  (NumPy 2 raises for
    every id outside that range.) *)
Definition int32_of (id : Z) : option Z :=
  if ((- 2 ^ 63 <=? id) && (id <? 2 ^ 63))%Z
  then Some ((id + 2 ^ 31) mod 2 ^ 32 - 2 ^ 31)%Z
  else None.

Fixpoint asarray_int32 (ids : list Z) : option (list Z) :=
  match ids with
  | [] => Some []
  | id :: rest =>
      match int32_of id, asarray_int32 rest with
      | Some x, Some xs => Some (x :: xs)
      | _, _ => None
      end
  end.

(** The id fits in int32. *)
Definition in_int32 (id : Z) : bool :=
  ((- 2 ^ 31 <=? id) && (id <? 2 ^ 31))%Z.

(** One row of [pad_sequences(sequences, padding="post", maxlen=maxlen)],
    with the defaults [truncating='pre'], [value=0] and [dtype='int32']:
    an empty sequence leaves the row of zeros; otherwise [s[-maxlen:]]
    is converted to int32 and written to the start of the row, which
    fails ([None]) when it is longer than the row. *)
Definition pad_row (maxlen : nat) (s : list Z) : option (list Z) :=
  match s with
  | [] => Some (repeat 0%Z maxlen)
  | _ :: _ =>
      match asarray_int32 (slice_last maxlen s) with
      | None => None
      | Some trunc =>
          if Nat.leb (length trunc) maxlen
          then Some (trunc ++ repeat 0%Z (maxlen - length trunc))
          else None
      end
  end.

Fixpoint pad_sequences (sequences : list (list Z)) (maxlen : nat)
  : option (list (list Z)) :=
  match sequences with
  | [] => Some []
  | s :: rest =>
      match pad_row maxlen s, pad_sequences rest maxlen with
      | Some row, Some rows => Some (row :: rows)
      | _, _ => None
      end
  end.

(** The mask of [layers.Masking()] (mask value 0) on the ids, one
    feature per position: a position counts when its id is not 0. *)
Definition token_mask (token_ids : list (list Z)) : list (list bool) :=
  map (map (fun id => negb (id =? 0)%Z)) token_ids.

(** The ids and the padded ids the notebook writes out. *)
Definition token_ids : list Z :=
  [101; 1731; 1385; 1110; 1103; 5351; 136; 102; 1109; 5351; 1110; 170; 3324;
   1214; 1385; 2581; 1417; 3162; 119; 1124; 1144; 1185; 1607; 1104; 13306;
   8340; 2975; 1133; 1110; 4000; 10496; 1260; 27054; 15306; 2607; 1107; 1103;
   181; 25509; 1197; 8340; 1105; 1385; 1268; 23298; 22869; 1116; 119]%Z.

Definition padded_token_ids : list Z :=
  [101; 1731; 1385; 1110; 1103; 5351; 136; 102; 1109;
   5351; 1110; 170; 3324; 1214; 1385; 2581; 1417; 3162;
   119; 1124; 1144; 1185; 1607; 1104; 13306; 8340; 2975;
   1133; 1110; 4000; 10496; 1260; 27054; 15306; 2607; 1107;
   1103; 181; 25509; 1197; 8340; 1105; 1385; 1268; 23298;
   22869; 1116; 119; 0; 0; 0; 0; 0; 0;
   0; 0; 0; 0; 0; 0]%Z.

(** ** Characters *)

#[local] Arguments Ascii.eqb : simpl never.

Ltac each_char c :=
  destruct c as [[] [] [] [] [] [] [] []]; vm_compute; try reflexivity;
  try discriminate; try tauto.


Lemma isspace_lower c : isspace (lower_char c) = isspace c.
Proof. each_char c. Qed.

Lemma is_period_lower c : is_period (lower_char c) = is_period c.
Proof. each_char c. Qed.

Lemma is_slash_lower c : Ascii.eqb (lower_char c) "/" = Ascii.eqb c "/".
Proof. each_char c. Qed.

Lemma letter_not_space c : is_letter c = true -> isspace c = false.
Proof. each_char c. Qed.

Lemma punct_not_space c : is_punct c = true -> isspace c = false.
Proof. each_char c. Qed.

Lemma eqb_true c d : Ascii.eqb c d = true -> c = d.
Proof. apply Ascii.eqb_eq. Qed.

(** ** [starts_with] *)

Lemma starts_with_app p r : starts_with p (p ++ r) = true.
Proof.
  induction p as [|a p IH]; simpl; [reflexivity|].
  now rewrite Ascii.eqb_refl.
Qed.

Lemma starts_with_inv p s :
  starts_with p s = true -> exists r, s = p ++ r.
Proof.
  revert s; induction p as [|a p IH]; intros s H.
  - now exists s.
  - destruct s as [|b s]; [discriminate|].
    simpl in H. apply andb_true_iff in H as [Hab Hp].
    apply eqb_true in Hab; subst b.
    destruct (IH _ Hp) as [r ->]. now exists r.
Qed.

(** An occurrence that starts in [u] and does not fit in [u] runs over
    the next character. *)
Lemma starts_with_over p u x v :
  starts_with p (u ++ x :: v) = true -> starts_with p u = false -> In x p.
Proof.
  revert u; induction p as [|a p IH]; intros u H Hu; [discriminate|].
  destruct u as [|b u]; simpl in *.
  - apply andb_true_iff in H as [H _]. left. now apply eqb_true in H.
  - apply andb_true_iff in H as [Hab H]. rewrite Hab in Hu. simpl in Hu.
    right. eapply IH; eauto.
Qed.

(** ** [replace] *)

Section Replace.

Variables (o : ascii) (old' new : pystr).
Let old := o :: old'.

Lemma replace_from_skip w r :
  replace_from (length w) old new (w ++ r) = replace_from 0 old new r.
Proof. induction w as [|c w IH]; simpl; auto. Qed.

Lemma replace_nil : replace old new [] = [].
Proof. reflexivity. Qed.

Lemma replace_hit r : replace old new (old ++ r) = new ++ replace old new r.
Proof.
  unfold replace, old. cbn [app replace_from].
  change (starts_with (o :: old') (o :: old' ++ r))
    with (starts_with (o :: old') ((o :: old') ++ r)).
  rewrite starts_with_app.
  replace (length (o :: old') - 1) with (length old') by (simpl; lia).
  now rewrite replace_from_skip.
Qed.

Lemma replace_miss c t :
  starts_with old (c :: t) = false ->
  replace old new (c :: t) = c :: replace old new t.
Proof. unfold replace, old. cbn [replace_from]. now intros ->. Qed.

(** The scan as an induction principle: the subject is empty, starts
    with an occurrence, or starts with a character that is kept. *)
Lemma replace_ind (P : list ascii -> Prop) :
  P [] ->
  (forall r, P r -> P (old ++ r)) ->
  (forall c t, starts_with old (c :: t) = false -> P t -> P (c :: t)) ->
  forall s : list ascii, P s.
Proof.
  intros Hnil Hhit Hmiss s.
  remember (length s) as n eqn:Hn. revert s Hn.
  induction n as [n IH] using lt_wf_ind. intros s Hn.
  destruct s as [|c t]; [exact Hnil|].
  destruct (starts_with old (c :: t)) eqn:E.
  - destruct (starts_with_inv _ _ E) as [r Hr]. rewrite Hr.
    apply Hhit. apply (IH (length r)); [|reflexivity].
    rewrite Hn, Hr. unfold old. simpl. rewrite length_app. lia.
  - apply Hmiss; [exact E|]. apply (IH (length t)); [|reflexivity].
    rewrite Hn. simpl. lia.
Qed.

(** A character that is not in [old] cuts the subject in two. *)
Lemma replace_barrier x u v :
  ~ In x old ->
  replace old new (u ++ x :: v)
  = replace old new u ++ x :: replace old new v.
Proof.
  intros Hx. induction u as [|r IH|c t E IH] using replace_ind.
  - cbn [app]. rewrite replace_nil, replace_miss; [reflexivity|].
    unfold old. simpl. destruct (Ascii.eqb o x) eqn:E; [|reflexivity].
    apply eqb_true in E. exfalso. apply Hx. now left.
  - rewrite <- app_assoc, !replace_hit, IH. now rewrite app_assoc.
  - cbn [app]. rewrite !replace_miss, IH; auto.
    destruct (starts_with old (c :: t ++ x :: v)) eqn:E'; [|reflexivity].
    exfalso. apply Hx.
    apply (starts_with_over old (c :: t) x v); assumption.
Qed.

(** Nothing changes where [old] does not occur. *)
Lemma replace_absent s : occurs old s = false -> replace old new s = s.
Proof.
  induction s as [|c t IH]; intros H; [reflexivity|].
  cbn [occurs] in H. apply orb_false_iff in H as [H1 H2].
  rewrite replace_miss by exact H1. now rewrite IH.
Qed.


End Replace.

(** ** First and last characters *)

Lemma first_is_app P (a b : pystr) :
  a <> [] -> first_is P (a ++ b) = first_is P a.
Proof. destruct a; [congruence|reflexivity]. Qed.

Lemma last_is_app P (a b : pystr) :
  b <> [] -> last_is P (a ++ b) = last_is P b.
Proof.
  intros Hb. unfold last_is. rewrite rev_app_distr. apply first_is_app.
  intros E. apply Hb. rewrite <- (rev_involutive b), E. reflexivity.
Qed.

Lemma last_is_cons P c (t : pystr) :
  t <> [] -> last_is P (c :: t) = last_is P t.
Proof. intros Ht. now apply (last_is_app P [c] t). Qed.

Lemma last_is_one P c : last_is P [c] = P c.
Proof. reflexivity. Qed.

Lemma last_is_snoc P (u : pystr) a : last_is P (u ++ [a]) = P a.
Proof. rewrite last_is_app by discriminate. reflexivity. Qed.

Section ReplaceEnds.

Variables (o n : ascii) (old' new' : pystr).
Local Abbreviation old := (o :: old').
Local Abbreviation new := (n :: new').

Lemma replace_nonempty s : s <> [] -> replace old new s <> [].
Proof.
  destruct s as [|c t]; [congruence|]. intros _.
  destruct (starts_with old (c :: t)) eqn:E.
  - destruct (starts_with_inv _ _ E) as [r ->].
    rewrite replace_hit. discriminate.
  - rewrite replace_miss by exact E. discriminate.
Qed.

Lemma replace_first P s :
  P o = P n -> first_is P (replace old new s) = first_is P s.
Proof.
  intros HP. destruct s as [|c t]; [reflexivity|].
  destruct (starts_with old (c :: t)) eqn:E.
  - destruct (starts_with_inv _ _ E) as [r ->].
    rewrite replace_hit. cbn. now rewrite HP.
  - now rewrite replace_miss by exact E.
Qed.

Lemma replace_last P s :
  last_is P old = last_is P new ->
  last_is P (replace old new s) = last_is P s.
Proof.
  intros HP. pattern s. apply (replace_ind o old'); clear s.
  - reflexivity.
  - intros r IH. rewrite replace_hit. destruct r as [|c r].
    + rewrite replace_nil, !app_nil_r. now symmetry.
    + rewrite !last_is_app; [exact IH|discriminate|].
      apply replace_nonempty. discriminate.
  - intros c t E IH. rewrite replace_miss by exact E.
    destruct t as [|d t]; [reflexivity|].
    rewrite (last_is_cons P c (d :: t)) by discriminate.
    rewrite last_is_cons; [exact IH|].
    apply replace_nonempty. discriminate.
Qed.

Lemma replace_has_nonspace s :
  has_nonspace new = true ->
  has_nonspace s = true -> has_nonspace (replace old new s) = true.
Proof.
  intros Hn. pattern s. apply (replace_ind o old'); clear s.
  - discriminate.
  - intros r _ _. rewrite replace_hit.
    unfold has_nonspace in *. rewrite existsb_app, Hn.
    reflexivity.
  - intros c t E IH H. rewrite replace_miss by exact E.
    unfold has_nonspace in *. cbn [existsb] in *.
    apply orb_true_iff in H as [H|H]; [now rewrite H|].
    rewrite IH by exact H. apply orb_true_r.
Qed.

End ReplaceEnds.

(** ** The two literal substitutions of [clean] *)

Lemma and_or_hit r :
  re_sub_and_or (and_or ++ r) = str "or" ++ re_sub_and_or r.
Proof. exact (replace_hit "a" (str "nd/or") (str "or") r). Qed.

Lemma and_or_miss c t :
  starts_with and_or (c :: t) = false ->
  re_sub_and_or (c :: t) = c :: re_sub_and_or t.
Proof. exact (replace_miss "a" (str "nd/or") (str "or") c t). Qed.

Lemma and_or_ind (P : list ascii -> Prop) :
  P [] ->
  (forall r, P r -> P (and_or ++ r)) ->
  (forall c t, starts_with and_or (c :: t) = false -> P t -> P (c :: t)) ->
  forall s : list ascii, P s.
Proof. exact (replace_ind "a" (str "nd/or") P). Qed.

Lemma and_or_barrier x u v :
  ~ In x and_or ->
  re_sub_and_or (u ++ x :: v) = re_sub_and_or u ++ x :: re_sub_and_or v.
Proof. exact (replace_barrier "a" (str "nd/or") (str "or") x u v). Qed.


Lemma and_or_first P s :
  P "a" = P "o" -> first_is P (re_sub_and_or s) = first_is P s.
Proof. exact (replace_first "a" "o" (str "nd/or") (str "r") P s). Qed.

Lemma and_or_last P s : last_is P (re_sub_and_or s) = last_is P s.
Proof.
  exact (replace_last "a" "o" (str "nd/or") (str "r") P s eq_refl).
Qed.

Lemma and_or_has_nonspace s :
  has_nonspace s = true -> has_nonspace (re_sub_and_or s) = true.
Proof.
  exact (replace_has_nonspace "a" "o" (str "nd/or") (str "r") s eq_refl).
Qed.


Lemma squeeze_hit r : squeeze ("." :: "." :: r) = "." :: squeeze r.
Proof. exact (replace_hit "." (str ".") (str ".") r). Qed.

Lemma squeeze_miss c t :
  starts_with (str "..") (c :: t) = false -> squeeze (c :: t) = c :: squeeze t.
Proof. exact (replace_miss "." (str ".") (str ".") c t). Qed.

Lemma squeeze_ind (P : list ascii -> Prop) :
  P [] ->
  (forall r, P r -> P ("." :: "." :: r)) ->
  (forall c t, starts_with (str "..") (c :: t) = false -> P t -> P (c :: t)) ->
  forall s : list ascii, P s.
Proof. exact (replace_ind "." (str ".") P). Qed.

Lemma squeeze_barrier x u v :
  is_period x = false -> squeeze (u ++ x :: v) = squeeze u ++ x :: squeeze v.
Proof.
  intros Hx. apply (replace_barrier "." (str ".") (str ".") x u v).
  unfold is_period in Hx. rewrite Ascii.eqb_sym in Hx.
  intros [E|[E|[]]]; subst x; discriminate.
Qed.



Lemma squeeze_last P s : last_is P (squeeze s) = last_is P s.
Proof. exact (replace_last "." "." (str ".") [] P s eq_refl). Qed.

Lemma squeeze_has_nonspace s :
  has_nonspace s = true -> has_nonspace (squeeze s) = true.
Proof. exact (replace_has_nonspace "." "." (str ".") [] s eq_refl). Qed.


(** ** The slash substitution *)

Lemma slash_emit_ctx p q c next :
  opt_is is_letter p = opt_is is_letter q ->
  slash_emit p c next = slash_emit q c next.
Proof. unfold slash_emit. now intros ->. Qed.

Lemma slash_emit_next p c m1 m2 :
  opt_is is_letter m1 = opt_is is_letter m2 ->
  slash_emit p c m1 = slash_emit p c m2.
Proof. unfold slash_emit. now intros ->. Qed.

Lemma slash_emit_keep p c next :
  Ascii.eqb c "/" && opt_is is_letter p && opt_is is_letter next = false ->
  slash_emit p c next = [c].
Proof. unfold slash_emit. now intros ->. Qed.

Lemma slash_emit_nonempty p c next : slash_emit p c next <> [].
Proof. unfold slash_emit. destruct (_ && _); discriminate. Qed.

(** Only the class of the character before the subject matters. *)
Lemma slash_ctx p q s :
  opt_is is_letter p = opt_is is_letter q ->
  re_sub_slash_from p s = re_sub_slash_from q s.
Proof.
  intros H. destruct s as [|c t]; [reflexivity|]. simpl.
  now rewrite (slash_emit_ctx p q).
Qed.

(** A character that is not a letter cuts the subject in two; what is
    emitted for it depends on its two neighbours. *)
Lemma slash_cut x v : forall u p,
  is_letter x = false ->
  re_sub_slash_from p (u ++ x :: v)
  = re_sub_slash_from p u
    ++ slash_emit (match rev u with [] => p | c :: _ => Some c end)
                  x (hd_error v)
    ++ re_sub_slash_from None v.
Proof.
  induction u as [|c u IH]; intros p Hx.
  - cbn [app rev re_sub_slash_from]. f_equal.
    apply slash_ctx. cbn. now rewrite Hx.
  - cbn [app rev re_sub_slash_from]. rewrite (IH (Some c) Hx).
    rewrite <- app_assoc. f_equal.
    + apply slash_emit_next. destruct u; cbn; [now rewrite Hx|reflexivity].
    + f_equal. f_equal. destruct (rev u); reflexivity.
Qed.

Lemma slash_barrier x u v :
  is_letter x = false -> Ascii.eqb x "/" = false ->
  re_sub_slash (u ++ x :: v) = re_sub_slash u ++ x :: re_sub_slash v.
Proof.
  intros Hx Hs. unfold re_sub_slash. rewrite slash_cut by exact Hx.
  unfold slash_emit. now rewrite Hs.
Qed.

(** The slash between [u] and [v]. *)
Lemma slash_at u v :
  re_sub_slash (u ++ "/" :: v)
  = re_sub_slash u
    ++ (if last_is is_letter u && first_is is_letter v
        then str " or " else ["/"])
    ++ re_sub_slash v.
Proof.
  unfold re_sub_slash. rewrite slash_cut by reflexivity. reflexivity.
Qed.

Lemma slash_nonempty p s : s <> [] -> re_sub_slash_from p s <> [].
Proof.
  destruct s as [|c t]; [congruence|]. intros _. simpl.
  intros E. apply app_eq_nil in E as [E _].
  now apply slash_emit_nonempty in E.
Qed.

Lemma slash_first P s : first_is P (re_sub_slash s) = first_is P s.
Proof.
  destruct s as [|c t]; [reflexivity|]. unfold re_sub_slash. simpl.
  unfold slash_emit. destruct (Ascii.eqb c "/"); reflexivity.
Qed.

Lemma slash_first_letter p s :
  first_is is_letter (re_sub_slash_from p s) = first_is is_letter s.
Proof.
  destruct s as [|c t]; [reflexivity|]. simpl. unfold slash_emit.
  destruct (Ascii.eqb c "/") eqn:E; [|reflexivity].
  apply eqb_true in E; subst c. destruct (_ && _); reflexivity.
Qed.

Lemma slash_last P : forall s p,
  last_is P (re_sub_slash_from p s) = last_is P s.
Proof.
  induction s as [|c t IH]; intros p; [reflexivity|].
  cbn [re_sub_slash_from]. destruct t as [|d t].
  - cbn [hd_error re_sub_slash_from]. rewrite app_nil_r.
    rewrite slash_emit_keep; [reflexivity|]. cbn. now rewrite andb_false_r.
  - rewrite last_is_app by (apply slash_nonempty; discriminate).
    rewrite IH. symmetry. apply last_is_cons. discriminate.
Qed.

Lemma slash_has_nonspace : forall s p,
  has_nonspace (re_sub_slash_from p s) = has_nonspace s.
Proof.
  induction s as [|c t IH]; intros p; [reflexivity|].
  cbn [re_sub_slash_from]. unfold has_nonspace in *.
  rewrite existsb_app, IH. cbn [existsb]. f_equal.
  unfold slash_emit. destruct (Ascii.eqb c "/") eqn:E.
  - apply eqb_true in E; subst c. destruct (_ && _); reflexivity.
  - cbn. now rewrite orb_false_r.
Qed.


(** ** The translation table *)

Lemma translate_cons c t :
  translate punctuation_spacer (c :: t)
  = (if is_punct c then [c; " "] else [c]) ++ translate punctuation_spacer t.
Proof.
  unfold translate. cbn [flat_map]. f_equal. each_char c.
Qed.

Lemma translate_app u v :
  translate punctuation_spacer (u ++ v)
  = translate punctuation_spacer u ++ translate punctuation_spacer v.
Proof. apply flat_map_app. Qed.

Lemma translate_keep x :
  is_punct x = false -> translate punctuation_spacer [x] = [x].
Proof. intros H. rewrite translate_cons, H. reflexivity. Qed.


Lemma translate_has_nonspace s :
  has_nonspace (translate punctuation_spacer s) = has_nonspace s.
Proof.
  induction s as [|c t IH]; [reflexivity|]. rewrite translate_cons.
  unfold has_nonspace in *. rewrite existsb_app, IH. cbn [existsb]. f_equal.
  destruct (is_punct c); cbn; now rewrite ?orb_false_r.
Qed.


(** ** Splitting at whitespace and joining with one space *)

Lemma clean_joined s : clean s = joined (spaced s).
Proof. reflexivity. Qed.

Lemma split_words : forall s, Forall (fun w => w <> []) (split s).
Proof.
  induction s as [|c t IH]; [constructor|]. cbn [split].
  destruct (isspace c); [exact IH|].
  destruct t as [|d t]; [repeat constructor; discriminate|].
  destruct (isspace d); [constructor; [discriminate|exact IH]|].
  destruct (split (d :: t)) as [|w ws].
  - repeat constructor; discriminate.
  - inversion IH; subst. constructor; [discriminate|assumption].
Qed.

Lemma join_nil_inv sep l :
  Forall (fun w : pystr => w <> []) l -> join sep l = [] -> l = [].
Proof.
  destruct l as [|w rest]; [reflexivity|]. intros H E. exfalso.
  inversion H as [|? ? Hw _]; subst. cbn [join] in E.
  destruct rest; [now apply Hw|].
  apply app_eq_nil in E as [E _]. now apply Hw.
Qed.

Lemma glue_nil_r a : glue a [] = a.
Proof. destruct a; reflexivity. Qed.

Lemma join_cons w l :
  w <> [] -> Forall (fun w : pystr => w <> []) l ->
  join (str " ") (w :: l) = glue w (join (str " ") l).
Proof.
  intros Hw Hl. destruct w as [|c w]; [congruence|].
  destruct l as [|w' rest]; [reflexivity|].
  cbn [join]. destruct rest as [|w'' rest].
  - inversion Hl; subst. destruct w'; [congruence|reflexivity].
  - destruct (w' ++ str " " ++ join (str " ") (w'' :: rest)) eqn:E;
      [|reflexivity].
    apply app_eq_nil in E as [E _]. inversion Hl; subst. congruence.
Qed.

Lemma joined_nil : joined [] = [].
Proof. reflexivity. Qed.

Lemma joined_space c t : isspace c = true -> joined (c :: t) = joined t.
Proof. intros H. unfold joined. cbn [split]. now rewrite H. Qed.

Lemma joined_one c : isspace c = false -> joined [c] = [c].
Proof. intros H. unfold joined. cbn [split]. now rewrite H. Qed.

Lemma joined_break c d t :
  isspace c = false -> isspace d = true ->
  joined (c :: d :: t) = glue [c] (joined t).
Proof.
  intros Hc Hd. unfold joined. cbn [split]. rewrite Hc, Hd.
  apply join_cons; [discriminate|apply split_words].
Qed.

Lemma joined_word c d t :
  isspace c = false -> isspace d = false ->
  joined (c :: d :: t) = c :: joined (d :: t).
Proof.
  intros Hc Hd. unfold joined.
  change (split (c :: d :: t))
    with (if isspace c then split (d :: t)
          else if isspace d then [c] :: split (d :: t)
               else match split (d :: t) with
                    | w :: ws => (c :: w) :: ws
                    | [] => [[c]]
                    end).
  rewrite Hc, Hd. destruct (split (d :: t)) as [|w ws]; [reflexivity|].
  cbn [join]. destruct ws; reflexivity.
Qed.

(** The scan of the whitespace step as an induction principle. *)
Lemma joined_ind (P : list ascii -> Prop) :
  P [] ->
  (forall c t, isspace c = true -> P t -> P (c :: t)) ->
  (forall c, isspace c = false -> P [c]) ->
  (forall c d t, isspace c = false -> isspace d = true ->
                 P t -> P (c :: d :: t)) ->
  (forall c d t, isspace c = false -> isspace d = false ->
                 P (d :: t) -> P (c :: d :: t)) ->
  forall s : list ascii, P s.
Proof.
  intros Hnil Hsp Hone Hbreak Hword.
  assert (H : forall s, P s /\ forall c, P (c :: s)).
  { induction s as [|d t [IH1 IH2]].
    - split; [exact Hnil|]. intros c. destruct (isspace c) eqn:E; auto.
    - split; [apply IH2|]. intros c.
      destruct (isspace c) eqn:Ec; [apply Hsp; auto|].
      destruct (isspace d) eqn:Ed; [apply Hbreak; auto|apply Hword; auto]. }
  intros s. apply H.
Qed.

Lemma joined_first_nonspace c t :
  isspace c = false -> exists r, joined (c :: t) = c :: r.
Proof.
  intros Hc. destruct t as [|d t].
  - exists []. now apply joined_one.
  - destruct (isspace d) eqn:Hd.
    + rewrite joined_break by assumption.
      destruct (joined t); cbn; eauto.
    + rewrite joined_word by assumption. eauto.
Qed.

Lemma joined_nonempty s : has_nonspace s = true -> joined s <> [].
Proof.
  induction s as [|c t IH]; [discriminate|]. intros H.
  unfold has_nonspace in *. cbn [existsb] in H.
  destruct (isspace c) eqn:Hc.
  - rewrite joined_space by exact Hc. auto.
  - destruct (joined_first_nonspace c t Hc) as [r ->]. discriminate.
Qed.

Lemma joined_ws_prefix ws v :
  forallb isspace ws = true -> joined (ws ++ v) = joined v.
Proof.
  induction ws as [|c ws IH]; [reflexivity|]. intros H.
  cbn [forallb app] in *. apply andb_true_iff in H as [Hc Hws].
  rewrite joined_space by exact Hc. auto.
Qed.

(** A whitespace character between [a] and [b]: the two halves are
    normalised separately and put together with one space. *)
Lemma joined_app_ws w b : forall a,
  isspace w = true -> joined (a ++ w :: b) = glue (joined a) (joined b).
Proof.
  intros a Hw. pattern a. apply joined_ind; clear a.
  - cbn [app]. now rewrite joined_space.
  - intros c t Hc IH. cbn [app]. now rewrite !joined_space.
  - intros c Hc. cbn [app]. rewrite joined_break, joined_one; auto.
  - intros c d t Hc Hd IH. cbn [app]. rewrite !joined_break by assumption.
    rewrite IH. destruct (joined t), (joined b); reflexivity.
  - intros c d t Hc Hd IH. cbn [app] in *. rewrite !joined_word by assumption.
    rewrite IH. destruct (joined_first_nonspace d t Hd) as [r ->].
    destruct (joined b); reflexivity.
Qed.


Lemma count_char_app x (a b : pystr) :
  count_char x (a ++ b) = count_char x a + count_char x b.
Proof. apply count_occ_app. Qed.

Lemma count_char_glue x a b :
  Ascii.eqb x " " = false ->
  count_char x (glue a b) = count_char x a + count_char x b.
Proof.
  intros Hx. destruct a as [|c a]; [reflexivity|].
  destruct b as [|d b]; [cbn [glue]; unfold count_char; cbn; lia|].
  cbn [glue]. rewrite count_char_app. f_equal.
  unfold count_char. cbn [count_occ]. destruct (ascii_dec " " x); [|reflexivity].
  subst x. discriminate.
Qed.

(** The whitespace step keeps every character that is not whitespace. *)
Lemma joined_count x s :
  isspace x = false -> count_char x (joined s) = count_char x s.
Proof.
  intros Hx.
  assert (Hsp : Ascii.eqb x " " = false).
  { destruct (Ascii.eqb x " ") eqn:E; [|reflexivity].
    apply eqb_true in E; subst x. discriminate. }
  assert (Hne : forall d, isspace d = true -> d <> x).
  { intros d Hd ->. congruence. }
  pattern s. apply joined_ind; clear s.
  - reflexivity.
  - intros c t Hc IH. rewrite joined_space by exact Hc. rewrite IH.
    unfold count_char. cbn [count_occ].
    destruct (ascii_dec c x); [now apply Hne in Hc|reflexivity].
  - intros c Hc. now rewrite joined_one.
  - intros c d t Hc Hd IH. rewrite joined_break by assumption.
    rewrite count_char_glue by exact Hsp. rewrite IH.
    unfold count_char. cbn [count_occ].
    destruct (ascii_dec d x); [now apply Hne in Hd|].
    destruct (ascii_dec c x); lia.
  - intros c d t Hc Hd IH. rewrite joined_word by assumption.
    unfold count_char in *. cbn [count_occ] in *. rewrite IH. reflexivity.
Qed.

Lemma joined_head s :
  joined s = [] \/ exists c r, joined s = c :: r /\ isspace c = false.
Proof.
  pattern s. apply joined_ind; clear s.
  - now left.
  - intros c t Hc IH. now rewrite joined_space.
  - intros c Hc. right. exists c, []. now rewrite joined_one.
  - intros c d t Hc Hd _. right. rewrite joined_break by assumption.
    destruct (joined t); cbn; eauto.
  - intros c d t Hc Hd _. right. rewrite joined_word by assumption. eauto.
Qed.

Lemma spaces_single_cons c t :
  spaces_single (c :: t)
  = (negb (isspace c)
     || Ascii.eqb c " " && first_is (fun d => negb (isspace d)) t)
    && spaces_single t.
Proof. reflexivity. Qed.

Lemma joined_spaces_single s : spaces_single (joined s) = true.
Proof.
  pattern s. apply joined_ind; clear s.
  - reflexivity.
  - intros c t Hc IH. now rewrite joined_space.
  - intros c Hc. rewrite joined_one by exact Hc. cbn. now rewrite Hc.
  - intros c d t Hc Hd IH. rewrite joined_break by assumption.
    destruct (joined_head t) as [E|(e & r & E & He)]; rewrite E in *.
    + cbn. now rewrite Hc.
    + cbn [glue app]. rewrite !(spaces_single_cons _ (_ :: _)), IH, Hc.
      unfold first_is. cbn. now rewrite He.
  - intros c d t Hc Hd IH. rewrite joined_word by assumption.
    cbn [spaces_single]. now rewrite Hc, IH.
Qed.

Lemma spaces_single_tail c t :
  spaces_single (c :: t) = true -> spaces_single t = true.
Proof. cbn. intros H. now apply andb_true_iff in H. Qed.

Lemma spaces_single_last s :
  spaces_single s = true -> last_is isspace s = false.
Proof.
  induction s as [|c t IH]; [reflexivity|]. intros H.
  destruct t as [|d t].
  - cbn in H. rewrite last_is_one. destruct (isspace c); [|reflexivity].
    now rewrite andb_false_r in H.
  - rewrite last_is_cons by discriminate. apply IH.
    now apply spaces_single_tail in H.
Qed.

Lemma spaces_single_only_space s c :
  spaces_single s = true -> In c s -> isspace c = true -> c = " ".
Proof.
  induction s as [|d t IH]; intros H Hin Hc; [destruct Hin|].
  destruct Hin as [->|Hin].
  - cbn in H. rewrite Hc in H. cbn in H.
    apply andb_true_iff in H as [H _]. apply andb_true_iff in H as [H _].
    now apply eqb_true in H.
  - apply IH; auto. now apply spaces_single_tail in H.
Qed.

Lemma spaces_single_apart : forall s i c d,
  spaces_single s = true ->
  nth_error s i = Some c -> nth_error s (S i) = Some d ->
  isspace c && isspace d = false.
Proof.
  induction s as [|a t IH]; intros i c d H Hc Hd; [destruct i; discriminate|].
  destruct i as [|i].
  - cbn in Hc. injection Hc as ->. destruct t as [|b t]; [discriminate|].
    cbn in Hd. injection Hd as ->. cbn in H.
    destruct (isspace c); [|reflexivity]. cbn in H |- *.
    apply andb_true_iff in H as [H _]. apply andb_true_iff in H as [_ H].
    unfold first_is in H. cbn in H. now apply negb_true_iff in H.
  - apply (IH i); auto. now apply spaces_single_tail in H.
Qed.

(** ** Punctuation *)

Lemma translate_punct_gap s :
  punct_gap (translate punctuation_spacer s) = true.
Proof.
  induction s as [|c t IH]; [reflexivity|]. rewrite translate_cons.
  destruct (is_punct c) eqn:E; cbn [app punct_gap]; rewrite E, IH;
    reflexivity.
Qed.

Lemma punct_gap_tail c t : punct_gap (c :: t) = true -> punct_gap t = true.
Proof. cbn. intros H. now apply andb_true_iff in H. Qed.

Lemma joined_punct_ok s : punct_gap s = true -> punct_ok (joined s) = true.
Proof.
  pattern s. apply joined_ind; clear s.
  - reflexivity.
  - intros c t Hc IH H. rewrite joined_space by exact Hc.
    apply IH. now apply punct_gap_tail in H.
  - intros c Hc _. rewrite joined_one by exact Hc. cbn.
    now rewrite orb_true_r.
  - intros c d t Hc Hd IH H. rewrite joined_break by assumption.
    do 2 apply punct_gap_tail in H. specialize (IH H).
    destruct (joined t) as [|e r]; cbn [glue app].
    + cbn. now rewrite orb_true_r.
    + change (punct_ok (c :: " " :: e :: r))
        with ((negb (is_punct c) || true) && (true && punct_ok (e :: r))).
      rewrite IH. now rewrite orb_true_r.
  - intros c d t Hc Hd IH H. rewrite joined_word by assumption.
    assert (Hp : is_punct c = false).
    { cbn in H. destruct (is_punct c); [|reflexivity].
      unfold first_is in H. cbn in H. now rewrite Hd in H. }
    cbn [punct_ok]. rewrite Hp. cbn. apply IH. now apply punct_gap_tail in H.
Qed.

Lemma punct_ok_spaced_or_last s :
  punct_ok s = true -> punct_spaced_or_last s.
Proof.
  induction s as [|a t IH]; intros H i c Hi Hc; [destruct i; discriminate|].
  cbn [punct_ok] in H. apply andb_true_iff in H as [H1 H2].
  destruct i as [|i].
  - cbn in Hi. injection Hi as ->. rewrite Hc in H1. cbn in H1.
    destruct t as [|b t]; [now right|]. left. cbn.
    apply eqb_true in H1. now subst b.
  - apply (IH H2 i c); assumption.
Qed.

(** ** The whitespace step on a whole sentence *)

Lemma isspace_fixed w : isspace w = true -> lower_char w = w.
Proof. each_char w. Qed.

Lemma isspace_not_punct w : isspace w = true -> is_punct w = false.
Proof. each_char w. Qed.

Lemma isspace_not_letter w : isspace w = true -> is_letter w = false.
Proof. each_char w. Qed.

Lemma isspace_not_slash w : isspace w = true -> Ascii.eqb w "/" = false.
Proof. each_char w. Qed.

Lemma letter_or_slash_of_and_or x :
  In x and_or -> is_letter x = true \/ Ascii.eqb x "/" = true.
Proof.
  intros H. cbn in H.
  repeat (destruct H as [<-|H]; [auto|]). destruct H.
Qed.

Lemma lower_app u v : lower (u ++ v) = lower u ++ lower v.
Proof. apply map_app. Qed.

(** A character that no step touches cuts the sentence in two up to the
    whitespace step. *)
Lemma spaced_barrier x u v :
  lower_char x = x -> is_letter x = false -> Ascii.eqb x "/" = false ->
  is_punct x = false ->
  spaced (u ++ x :: v) = spaced u ++ x :: spaced v.
Proof.
  intros Hlow Hlet Hsl Hp. unfold spaced.
  rewrite lower_app. cbn [lower map]. rewrite Hlow.
  rewrite and_or_barrier.
  2:{ intros Hin. apply letter_or_slash_of_and_or in Hin as [E|E]; congruence. }
  rewrite slash_barrier by assumption.
  rewrite squeeze_barrier.
  2:{ unfold is_punct in Hp. apply orb_false_iff in Hp as [Hp _]. exact Hp. }
  change (?a ++ x :: ?b) with (a ++ [x] ++ b).
  rewrite !translate_app, translate_keep by exact Hp. reflexivity.
Qed.

Lemma lower_has_nonspace s : has_nonspace (lower s) = has_nonspace s.
Proof.
  induction s as [|c t IH]; [reflexivity|]. unfold has_nonspace, lower in *.
  cbn [map existsb]. now rewrite IH, isspace_lower.
Qed.

Lemma spaced_has_nonspace s :
  has_nonspace s = true -> has_nonspace (spaced s) = true.
Proof.
  intros H. unfold spaced. rewrite translate_has_nonspace.
  apply squeeze_has_nonspace. unfold re_sub_slash. rewrite slash_has_nonspace.
  apply and_or_has_nonspace. now rewrite lower_has_nonspace.
Qed.

Lemma clean_nil : clean [] = [].
Proof. reflexivity. Qed.

Lemma clean_nonempty s : has_nonspace s = true -> clean s <> [].
Proof.
  intros H. rewrite clean_joined. apply joined_nonempty.
  now apply spaced_has_nonspace.
Qed.

Lemma clean_ws_char w u v :
  isspace w = true -> clean (u ++ w :: v) = glue (clean u) (clean v).
Proof.
  intros Hw. rewrite !clean_joined, spaced_barrier.
  - now apply joined_app_ws.
  - now apply isspace_fixed.
  - now apply isspace_not_letter.
  - now apply isspace_not_slash.
  - now apply isspace_not_punct.
Qed.

Lemma clean_ws_lead ws v :
  forallb isspace ws = true -> clean (ws ++ v) = clean v.
Proof.
  induction ws as [|w ws IH]; [reflexivity|]. intros H.
  cbn [forallb] in H. apply andb_true_iff in H as [Hw Hws].
  change ((w :: ws) ++ v) with ([] ++ w :: (ws ++ v)).
  rewrite clean_ws_char by exact Hw. rewrite clean_nil. cbn [glue]. auto.
Qed.

Lemma clean_ws_run w ws u v :
  forallb isspace (w :: ws) = true ->
  clean (u ++ (w :: ws) ++ v) = glue (clean u) (clean v).
Proof.
  intros H. cbn [forallb] in H. apply andb_true_iff in H as [Hw Hws].
  cbn [app]. rewrite clean_ws_char by exact Hw.
  now rewrite clean_ws_lead.
Qed.

(** ** Runs of periods *)

Lemma squeeze_dots y : forall n,
  first_is is_period y = false ->
  squeeze (repeat "." n ++ y) = repeat "." (Nat.div2 (S n)) ++ squeeze y.
Proof.
  intros n Hy.
  assert (H1 : squeeze ("." :: y) = "." :: squeeze y).
  { apply squeeze_miss. destruct y as [|d y]; [reflexivity|].
    unfold first_is, is_period in Hy. cbn in Hy |- *.
    rewrite Ascii.eqb_refl, Ascii.eqb_sym, Hy. reflexivity. }
  assert (H : squeeze (repeat "." n ++ y)
              = repeat "." (Nat.div2 (S n)) ++ squeeze y
              /\ squeeze (repeat "." (S n) ++ y)
                 = repeat "." (Nat.div2 (S (S n))) ++ squeeze y).
  { induction n as [|n [IH1 IH2]].
    - split; [reflexivity|exact H1].
    - split; [exact IH2|].
      change (repeat "." (S (S n)) ++ y)
        with ("." :: "." :: (repeat "." n ++ y)).
      rewrite squeeze_hit, IH1. reflexivity. }
  apply H.
Qed.

Lemma last_is_tail P c (t : pystr) :
  last_is P (c :: t) = false -> last_is P t = false.
Proof.
  destruct t as [|d t]; [reflexivity|].
  now rewrite last_is_cons by discriminate.
Qed.

(** A maximal run of [n] periods is cut down to half its length, rounded
    up. *)
Lemma squeeze_run n y : forall x,
  last_is is_period x = false -> first_is is_period y = false ->
  squeeze (x ++ repeat "." n ++ y)
  = squeeze x ++ repeat "." (Nat.div2 (S n)) ++ squeeze y.
Proof.
  intros x Hx Hy. revert Hx. pattern x. apply squeeze_ind; clear x.
  - intros _. now apply squeeze_dots.
  - intros r IH Hr. cbn [app]. rewrite !squeeze_hit. cbn [app]. f_equal.
    apply IH. now do 2 apply last_is_tail in Hr.
  - intros c t E IH Hc. cbn [app]. rewrite (squeeze_miss c t E).
    cbn [app]. rewrite squeeze_miss.
    + f_equal. apply IH. now apply last_is_tail in Hc.
    + destruct t as [|d t].
      * rewrite last_is_one in Hc. unfold is_period in Hc.
        cbn. now rewrite Ascii.eqb_sym, Hc.
      * exact E.
Qed.

(** A step with a barrier character also passes a run of it. *)
Lemma barrier_run (f : pystr -> pystr) x :
  f [] = [] ->
  (forall u v, f (u ++ x :: v) = f u ++ x :: f v) ->
  forall n u v,
    f (u ++ repeat x (S n) ++ v) = f u ++ repeat x (S n) ++ f v.
Proof.
  intros Hnil Hcut. induction n as [|n IH]; intros u v.
  - apply Hcut.
  - change (repeat x (S (S n)) ++ v) with (x :: (repeat x (S n) ++ v)).
    rewrite Hcut. f_equal.
    change (x :: f ([] ++ repeat x (S n) ++ v)
            = x :: repeat x (S n) ++ f v).
    now rewrite IH, Hnil.
Qed.

Lemma lower_first P s :
  first_is P (lower s) = first_is (fun c => P (lower_char c)) s.
Proof. destruct s; reflexivity. Qed.

Lemma lower_last P s :
  last_is P (lower s) = last_is (fun c => P (lower_char c)) s.
Proof. unfold last_is, lower. rewrite <- map_rev. apply lower_first. Qed.

Lemma first_is_ext P Q s :
  (forall c, P c = Q c) -> first_is P s = first_is Q s.
Proof. intros H. destruct s; [reflexivity|apply H]. Qed.

Lemma last_is_ext P Q s :
  (forall c, P c = Q c) -> last_is P s = last_is Q s.
Proof. intros H. now apply first_is_ext. Qed.

Lemma lower_dots n : lower (repeat "." n) = repeat "." n.
Proof. induction n as [|n IH]; [reflexivity|]. cbn. now f_equal. Qed.

Lemma translate_dots_count n :
  count_char "." (translate punctuation_spacer (repeat "." n)) = n.
Proof.
  induction n as [|n IH]; [reflexivity|].
  cbn [repeat]. rewrite translate_cons. cbn [is_punct].
  rewrite count_char_app, IH. reflexivity.
Qed.

Lemma spaced_period_run n u v :
  last_is is_period u = false -> first_is is_period v = false ->
  spaced (u ++ repeat "." (S n) ++ v)
  = spaced u
    ++ translate punctuation_spacer (repeat "." (Nat.div2 (S (S n))))
    ++ spaced v.
Proof.
  intros Hu Hv. unfold spaced.
  rewrite !lower_app, lower_dots.
  rewrite (barrier_run re_sub_and_or ".") ; [|reflexivity|].
  2:{ intros a b. apply and_or_barrier. cbn. intuition discriminate. }
  rewrite (barrier_run re_sub_slash "."); [|reflexivity|].
  2:{ intros a b. now apply slash_barrier. }
  rewrite squeeze_run.
  - now rewrite !translate_app.
  - unfold re_sub_slash. rewrite slash_last, and_or_last, lower_last.
    rewrite <- Hu. apply last_is_ext. intros c. apply is_period_lower.
  - rewrite slash_first, and_or_first by reflexivity. rewrite lower_first.
    rewrite <- Hv. apply first_is_ext. intros c. apply is_period_lower.
Qed.

(** ** Slashes and [and/or] *)

Lemma starts_with_app_l p a b :
  starts_with p a = true -> starts_with p (a ++ b) = true.
Proof.
  intros H. destruct (starts_with_inv _ _ H) as [r ->].
  rewrite <- app_assoc. apply starts_with_app.
Qed.

Lemma ends_with_app p a r :
  ends_with p r = true -> ends_with p (a ++ r) = true.
Proof.
  unfold ends_with. rewrite rev_app_distr. apply starts_with_app_l.
Qed.

Lemma ends_with_last P p s :
  ends_with p s = true -> p <> [] -> last_is P s = last_is P p.
Proof.
  unfold ends_with, last_is. intros H Hp.
  destruct (starts_with_inv _ _ H) as [r ->]. apply first_is_app.
  intros E. apply Hp. rewrite <- (rev_involutive p), E. reflexivity.
Qed.

(** An occurrence that starts in [u] either lies in [u] or ends in what
    follows [u]. *)
Lemma starts_with_split p w : forall u,
  starts_with p (u ++ w) = true ->
  starts_with p u = true
  \/ exists p2, p = u ++ p2 /\ starts_with p2 w = true.
Proof.
  revert p. intros p u. revert p. induction u as [|c u IH]; intros p H.
  - right. now exists p.
  - destruct p as [|a p]; [now left|]. cbn in H.
    apply andb_true_iff in H as [Hac H]. apply eqb_true in Hac; subst c.
    destruct (IH _ H) as [H'|(p2 & -> & H')].
    + left. cbn. now rewrite Ascii.eqb_refl.
    + right. now exists p2.
Qed.

Ltac list_cases H u :=
  destruct u as [|? [|? [|? [|? [|? [|? [|? u]]]]]]]; cbn in H;
  try discriminate H.

(** The slash of the sentence is not the slash of an [and/or]: the
    substitution treats the two sides separately. *)
Lemma and_or_slash_cut v : forall u,
  ends_with (str "and") u && starts_with (str "or") v = false ->
  re_sub_and_or (u ++ "/" :: v) = re_sub_and_or u ++ "/" :: re_sub_and_or v.
Proof.
  intros u. pattern u. apply and_or_ind; clear u.
  - intros _. cbn [app]. now rewrite and_or_miss.
  - intros r IH H. rewrite <- app_assoc, !and_or_hit, IH.
    + now rewrite app_assoc.
    + destruct (ends_with (str "and") r) eqn:E; [|reflexivity].
      now rewrite (ends_with_app _ and_or r E) in H.
  - intros c t E IH H. cbn [app]. rewrite (and_or_miss c t E).
    rewrite and_or_miss.
    + cbn [app]. f_equal. apply IH.
      destruct (ends_with (str "and") t) eqn:E'; [|reflexivity].
      pose proof (ends_with_app _ [c] t E') as E''. cbn [app] in E''.
      now rewrite E'' in H.
    + destruct (starts_with and_or (c :: t ++ "/" :: v)) eqn:E';
        [|reflexivity].
      exfalso.
      destruct (starts_with_split and_or ("/" :: v) (c :: t) E')
        as [E2|(p2 & Hp & E2)]; [congruence|].
      destruct p2 as [|x p2].
      { rewrite app_nil_r in Hp. rewrite <- Hp in E.
        vm_compute in E. discriminate E. }
      cbn in E2. apply andb_true_iff in E2 as [Ex E2].
      apply eqb_true in Ex; subst x.
      assert (Hu : c :: t = str "and" /\ p2 = str "or").
      { clear - Hp. unfold and_or in Hp. revert Hp. generalize (c :: t).
        intros u Hp. list_cases Hp u.
        all: try (injection Hp; intros; subst; try discriminate).
        now split. }
      destruct Hu as [Hu ->]. rewrite Hu, E2 in H. discriminate H.
Qed.

(** An occurrence of [and/or] is replaced wherever it stands: no other
    occurrence overlaps it. *)
Lemma and_or_occurrence v : forall u,
  re_sub_and_or (u ++ and_or ++ v)
  = re_sub_and_or u ++ str "or" ++ re_sub_and_or v.
Proof.
  intros u. pattern u. apply and_or_ind; clear u.
  - cbn [app]. apply and_or_hit.
  - intros r IH. rewrite <- app_assoc, !and_or_hit, IH.
    now rewrite app_assoc.
  - intros c t E IH. cbn [app]. rewrite (and_or_miss c t E).
    rewrite and_or_miss; [cbn [app]; now f_equal|].
    destruct (starts_with and_or (c :: t ++ and_or ++ v)) eqn:E';
      [|reflexivity].
    exfalso.
    destruct (starts_with_split and_or (and_or ++ v) (c :: t) E')
      as [E2|(p2 & Hp & E2)]; [congruence|].
    assert (Hu : c :: t <> []) by discriminate.
    clear - Hu E Hp E2. unfold and_or in *. revert Hu E Hp.
    generalize (c :: t) as u. intros u Hu E Hp. list_cases Hp u.
    all: try congruence.
    all: injection Hp; intros; subst.
    all: first [ vm_compute in E2; discriminate E2
               | vm_compute in E; discriminate E ].
Qed.

(** ** What the output of [clean] no longer contains *)

Lemma nls_cons p c t :
  no_letter_slash_from p (c :: t)
  = negb (Ascii.eqb c "/" && opt_is is_letter p && first_is is_letter t)
    && no_letter_slash_from (Some c) t.
Proof. reflexivity. Qed.

Lemma nls_skip p c t :
  Ascii.eqb c "/" = false ->
  no_letter_slash_from p (c :: t) = no_letter_slash_from (Some c) t.
Proof. intros H. now rewrite nls_cons, H. Qed.


Lemma nls_weaken p s :
  no_letter_slash_from p s = true -> no_letter_slash_from None s = true.
Proof.
  destruct s as [|c t]; [reflexivity|]. rewrite !nls_cons. intros H.
  apply andb_true_iff in H as [_ H]. rewrite H. cbn [opt_is].
  now rewrite andb_false_r.
Qed.




(** The slash substitution leaves no slash between two letters. *)
Lemma slash_no_letter_slash : forall s p q,
  (opt_is is_letter q = true -> opt_is is_letter p = true) ->
  no_letter_slash_from q (re_sub_slash_from p s) = true.
Proof.
  induction s as [|c t IH]; intros p q Hq; [reflexivity|].
  cbn [re_sub_slash_from]. unfold slash_emit.
  destruct (Ascii.eqb c "/" && opt_is is_letter p
            && opt_is is_letter (hd_error t)) eqn:E.
  - change (str " or " ++ ?r) with (" " :: "o" :: "r" :: " " :: r).
    rewrite !nls_skip by reflexivity. apply IH. discriminate.
  - cbn [app]. rewrite nls_cons, (IH (Some c) (Some c)) by auto.
    rewrite slash_first_letter. unfold first_is.
    destruct (Ascii.eqb c "/"); [|reflexivity].
    destruct (opt_is is_letter q); [|reflexivity].
    rewrite Hq in E by reflexivity. cbn in E |- *. now rewrite E.
Qed.






Lemma no_letter_slash_fixed : forall s p,
  no_letter_slash_from p s = true -> re_sub_slash_from p s = s.
Proof.
  induction s as [|c t IH]; intros p H; [reflexivity|].
  rewrite nls_cons in H. apply andb_true_iff in H as [H1 H2].
  cbn [re_sub_slash_from]. rewrite (IH _ H2).
  rewrite slash_emit_keep; [reflexivity|]. now apply negb_true_iff in H1.
Qed.






(** * Results *)

(** ** The sentences of the notebook *)

Example clean_sentence_1 :
  clean (str "     BIBASILAR OPACITIES,likely representing bilateral pleural effusions with ATELECTASIS   and/or PNEUMONIA..")
  = str "bibasilar opacities, likely representing bilateral pleural effusions with atelectasis or pneumonia.".
Proof. reflexivity. Qed.

Example clean_sentence_2 :
  clean (str "Small left pleural effusion/decreased lung volumes bilaterally.left RetroCardiac Atelectasis.")
  = str "small left pleural effusion or decreased lung volumes bilaterally. left retrocardiac atelectasis.".
Proof. reflexivity. Qed.

(** ** The two definitions of [clean] *)

(** C7. The function of the text-cleaning notebook and the function of
    the BioC/NegBio notebook return the same string on every input. *)
Theorem clean_same_in_both_notebooks (s : pystr) :
  CleaningText.clean s = BiocNegbio.clean s.
Proof.
  unfold CleaningText.clean, BiocNegbio.clean.
  unfold CleaningText.punctuation_spacer, BiocNegbio.punctuation_spacer.
  reflexivity.
Qed.

(** ** No failure *)

Lemma maketrans_punctuation :
  maketrans punctuation_dict = Returned punctuation_spacer.
Proof. reflexivity. Qed.

(** C8. On every string [clean] returns a string and raises nothing:
    the only step that can raise on a string, [str.maketrans], gets keys
    of length one.  The empty string, a string of whitespace and a
    string of punctuation are cleaned like any other. *)
Theorem clean_returns (s : pystr) :
  clean_run s = Returned (clean s)
  /\ clean_run (str "") = Returned (str "")
  /\ clean_run (str "   ") = Returned (str "")
  /\ clean_run (str ".,.") = Returned (str ". , .").
Proof.
  split; [|repeat split]. unfold clean_run.
  rewrite maketrans_punctuation. reflexivity.
Qed.

(** ** Whitespace *)

(** C3, as stated, fails: a run of whitespace at the start or at the end
    of the sentence leaves no space in the output. *)
Lemma clean_outer_whitespace_dropped :
  clean (str "  a ") = str "a"
  /\ count_char " " (clean (str "  a ")) = 0.
Proof. split; reflexivity. Qed.

(** C3 (amended). A run of whitespace between two parts of the sentence
    that both hold a character other than whitespace becomes exactly one
    space between the two cleaned parts; a run at the start or at the
    end of the sentence is removed. *)
Theorem clean_whitespace_run (w : ascii) (ws u v : pystr) :
  forallb isspace (w :: ws) = true ->
  (has_nonspace u = true -> has_nonspace v = true ->
   clean (u ++ (w :: ws) ++ v) = clean u ++ " " :: clean v)
  /\ clean ((w :: ws) ++ v) = clean v
  /\ clean (u ++ w :: ws) = clean u.
Proof.
  intros H. repeat split.
  - intros Hu Hv. rewrite clean_ws_run by exact H.
    apply clean_nonempty in Hu, Hv.
    destruct (clean u); [congruence|]. destruct (clean v); [congruence|].
    reflexivity.
  - now apply clean_ws_lead.
  - rewrite <- (app_nil_r (w :: ws)), clean_ws_run by exact H.
    rewrite clean_nil. apply glue_nil_r.
Qed.

Lemma clean_whitespace_run_witness :
  forallb isspace (str "   ") = true
  /\ clean (str "atelectasis   and") = str "atelectasis and".
Proof.
  split; [reflexivity|].
  apply (clean_whitespace_run " " (str "  ") (str "atelectasis") (str "and"));
    reflexivity.
Defined.

(** C9. The output of [clean] is in whitespace normal form: it neither
    starts nor ends with whitespace, its only whitespace character is the
    space, and no two whitespace characters are adjacent. *)
Theorem clean_whitespace_normal_form (s : pystr) : ws_normal_form (clean s).
Proof.
  rewrite clean_joined. set (x := spaced s).
  pose proof (joined_spaces_single x) as Hs.
  repeat split.
  - destruct (joined_head x) as [->|(c & r & -> & Hc)]; [reflexivity|].
    exact Hc.
  - now apply spaces_single_last.
  - intros c. now apply spaces_single_only_space.
  - intros i c d. now apply spaces_single_apart.
Qed.

(** ** Punctuation *)

(** C4, as stated, fails: a period that ends the sentence is followed by
    nothing, the space put behind it is removed by the whitespace step. *)
Lemma clean_final_period_unspaced :
  clean (str "a.") = str "a." /\ ~ punct_spaced (clean (str "a.")).
Proof.
  split; [reflexivity|]. intros H.
  specialize (H 1 "." eq_refl eq_refl). discriminate.
Qed.

(** C4 (amended). In the output of [clean] every period and every comma
    is immediately followed by a space, or is the last character. *)
Theorem clean_punct_spaced_or_last (s : pystr) :
  punct_spaced_or_last (clean s).
Proof.
  apply punct_ok_spaced_or_last. rewrite clean_joined.
  apply joined_punct_ok. apply translate_punct_gap.
Qed.

(** ** Repeated periods *)

(** C2, as stated, fails: [replace("..", ".")] replaces pairs of periods
    from left to right once, so four periods leave two. *)
Lemma clean_four_periods :
  clean (str "a....b") = str "a. . b"
  /\ count_char "." (clean (str "a....b")) <> 1.
Proof. split; [reflexivity|]. vm_compute. discriminate. Qed.

(** C2 (amended). A maximal run of [n >= 1] periods contributes half of
    [n], rounded up, periods to the output: one period for a run of one
    or two, two periods for a run of three or four. *)
Theorem clean_period_run (n : nat) (u v : pystr) :
  last_is is_period u = false -> first_is is_period v = false ->
  count_char "." (clean (u ++ repeat "." (S n) ++ v))
  = count_char "." (clean u) + (S n + 1) / 2 + count_char "." (clean v).
Proof.
  intros Hu Hv. rewrite !clean_joined, !joined_count by reflexivity.
  rewrite spaced_period_run by assumption.
  rewrite !count_char_app, translate_dots_count.
  rewrite Nat.div2_div. replace (S n + 1) with (S (S n)) by lia.
  lia.
Qed.

Lemma clean_period_run_witness :
  last_is is_period (str "a") = false
  /\ first_is is_period (str "b") = false
  /\ count_char "." (clean (str "a" ++ repeat "." 4 ++ str "b")) = 2.
Proof.
  split; [reflexivity|split; [reflexivity|]].
  apply (clean_period_run 3 (str "a") (str "b")); reflexivity.
Defined.

(** ** Slashes *)

Lemma first_is_In P (s : pystr) :
  first_is P s = true -> exists c, In c s /\ P c = true.
Proof.
  destruct s as [|c t]; [discriminate|]. intros H. exists c.
  split; [now left|exact H].
Qed.

Lemma last_is_In P (s : pystr) :
  last_is P s = true -> exists c, In c s /\ P c = true.
Proof.
  intros H. destruct (first_is_In P (rev s) H) as (c & Hin & Hc).
  exists c. split; [now apply in_rev|exact Hc].
Qed.

Lemma letter_gives_nonspace (s : pystr) c :
  In c (lower s) -> is_letter c = true -> has_nonspace s = true.
Proof.
  intros Hin Hc. rewrite <- lower_has_nonspace. unfold has_nonspace.
  apply existsb_exists. exists c. split; [exact Hin|].
  now rewrite (letter_not_space c Hc).
Qed.

(** Up to the whitespace step, a slash that after lowercasing stands
    between two letters and is not the slash of an [and/or] becomes
    [" or "] between the two sides. *)
Lemma spaced_slash_between_letters u v :
  last_is is_letter (lower u) = true ->
  first_is is_letter (lower v) = true ->
  ends_with (str "and") (lower u) && starts_with (str "or") (lower v) = false ->
  spaced (u ++ "/" :: v) = spaced u ++ str " or " ++ spaced v.
Proof.
  intros Hu Hv Hno. unfold spaced.
  rewrite lower_app. cbn [lower map]. change (lower_char "/") with "/".
  fold (lower v). rewrite and_or_slash_cut by exact Hno.
  rewrite slash_at.
  rewrite and_or_last, and_or_first by reflexivity.
  rewrite Hu, Hv. cbn [andb].
  change (str " or " ++ ?r) with (" " :: str "or" ++ " " :: r).
  rewrite squeeze_barrier by reflexivity.
  rewrite (squeeze_barrier " " (str "or")) by reflexivity.
  change (?a ++ " " :: ?b) with (a ++ [" "] ++ b).
  rewrite !translate_app. reflexivity.
Qed.

(** Up to the whitespace step, any other slash stays a slash between the
    two sides. *)
Lemma spaced_slash_elsewhere u v :
  last_is is_letter (lower u) && first_is is_letter (lower v) = false ->
  spaced (u ++ "/" :: v) = spaced u ++ "/" :: spaced v.
Proof.
  intros H. unfold spaced.
  rewrite lower_app. cbn [lower map]. change (lower_char "/") with "/".
  fold (lower v).
  rewrite and_or_slash_cut.
  2:{ destruct (ends_with (str "and") (lower u)) eqn:E1; [|reflexivity].
      destruct (starts_with (str "or") (lower v)) eqn:E2; [|reflexivity].
      exfalso.
      apply (ends_with_last is_letter) in E1; [|discriminate].
      destruct (starts_with_inv _ _ E2) as [r Hr].
      rewrite E1, Hr in H. discriminate H. }
  rewrite slash_at.
  rewrite and_or_last, and_or_first by reflexivity.
  rewrite H. cbn [app].
  rewrite squeeze_barrier by reflexivity.
  change (?a ++ "/" :: ?b) with (a ++ ["/"] ++ b).
  rewrite !translate_app. reflexivity.
Qed.

(** C5, as stated, fails twice.  The slash of [and/or] stands between
    two letters, and neither becomes [" or "] nor keeps its neighbours.
    And a slash between two alphabetic characters that are not in
    [[a-zA-Z]], such as U+00E9, stays a slash. *)
Lemma slash_between_letters_not_always_or :
  (clean (str "and/or") = str "or"
   /\ clean (str "and/or") <> str "and or or")
  /\ (isalpha e_acute = true
      /\ clean [e_acute; "/"; e_acute] = [e_acute; "/"; e_acute]).
Proof.
  split; split; try reflexivity. vm_compute. discriminate.
Qed.

(** C5 (amended). A slash that, in the lowercased sentence, stands
    immediately between two letters of [[a-zA-Z]] and is not the slash of
    an occurrence of [and/or] is replaced with [" or "]: the output is
    the cleaned text before the slash, then [" or "], then the cleaned
    text behind it.  A slash that does not stand between two such letters
    stays a slash between the two sides. *)
Theorem clean_slash (u v : pystr) :
  (last_is is_letter (lower u) = true ->
   first_is is_letter (lower v) = true ->
   ends_with (str "and") (lower u) && starts_with (str "or") (lower v) = false ->
   clean (u ++ "/" :: v) = clean u ++ str " or " ++ clean v)
  /\ (last_is is_letter (lower u) && first_is is_letter (lower v) = false ->
      clean (u ++ "/" :: v) = joined (spaced u ++ "/" :: spaced v)).
Proof.
  split.
  - intros Hu Hv Hno. rewrite !clean_joined.
    rewrite spaced_slash_between_letters by assumption.
    change (str " or " ++ ?r) with (" " :: str "or" ++ " " :: r).
    rewrite joined_app_ws, joined_app_ws by reflexivity.
    rewrite <- !clean_joined.
    assert (H1 : clean u <> []).
    { destruct (last_is_In _ _ Hu) as (c & Hin & Hc).
      apply clean_nonempty. now apply (letter_gives_nonspace u c). }
    assert (H2 : clean v <> []).
    { destruct (first_is_In _ _ Hv) as (c & Hin & Hc).
      apply clean_nonempty. now apply (letter_gives_nonspace v c). }
    destruct (clean u); [congruence|].
    destruct (clean v); [congruence|]. reflexivity.
  - intros H. rewrite clean_joined. now rewrite spaced_slash_elsewhere.
Qed.

Lemma clean_slash_witness :
  clean (str "Effusion/Decreased") = str "effusion or decreased"
  /\ clean (str "1/2") = str "1/2".
Proof.
  split.
  - apply (proj1 (clean_slash (str "Effusion") (str "Decreased")));
      reflexivity.
  - apply (proj2 (clean_slash (str "1") (str "2"))); reflexivity.
Defined.

(** ** [and/or] *)

(** C6. Every occurrence of [and/or], in any case, is replaced with
    [or] before the slash rule runs: the rest of [clean] sees [or] in its
    place, and the occurrence alone is cleaned to [or], where the slash
    rule applied first would have led to [and or or]. *)
Theorem clean_and_or (x u v : pystr) :
  lower x = and_or ->
  clean (u ++ x ++ v)
  = joined (translate punctuation_spacer (squeeze (re_sub_slash
      (re_sub_and_or (lower u) ++ str "or" ++ re_sub_and_or (lower v)))))
  /\ clean x = str "or"
  /\ re_sub_and_or (re_sub_slash (lower x)) = str "and or or".
Proof.
  intros Hx. repeat split.
  - unfold clean. rewrite !lower_app, Hx, and_or_occurrence. reflexivity.
  - unfold clean. rewrite Hx. reflexivity.
  - rewrite Hx. reflexivity.
Qed.

Lemma clean_and_or_witness :
  lower (str "AND/or") = and_or
  /\ clean (str "AND/or") = str "or"
  /\ clean (str "atelectasis " ++ str "AND/or" ++ str " pneumonia")
     = str "atelectasis or pneumonia".
Proof.
  split; [reflexivity|split].
  - exact (proj1 (proj2 (clean_and_or (str "AND/or") [] [] eq_refl))).
  - rewrite (proj1 (clean_and_or (str "AND/or") (str "atelectasis ")
                      (str " pneumonia") eq_refl)).
    reflexivity.
Defined.

(** ** Idempotence *)






(** * Further properties of the steps *)

(** ** [str.maketrans] and [str.translate] *)

Lemma str_eqb_one c d : str_eqb [c] [d] = Ascii.eqb c d.
Proof. cbn. apply andb_true_r. Qed.

(** X1. [str.maketrans] raises [ValueError] exactly when a key of the
    dictionary is not one character long; otherwise the table it returns
    maps a character to what the dictionary holds for the one-character
    string. *)
Theorem maketrans_keys (d : list (pystr * pystr)) :
  match maketrans d with
  | Returned tbl =>
      forallb one_char_key d = true
      /\ forall c, table_get tbl c = dict_get [c] d
  | Raised _ => forallb one_char_key d = false
  end.
Proof.
  induction d as [|[k v] rest IH]; [split; reflexivity|].
  cbn [maketrans forallb]. unfold one_char_key at 1. cbn [fst].
  destruct k as [|c [|c' k]]; [reflexivity| |reflexivity].
  destruct (maketrans rest) as [tbl|e]; cbn [bind length Nat.eqb andb].
  - destruct IH as [IH1 IH2]. split; [exact IH1|].
    intros x. cbn [table_get dict_get]. rewrite str_eqb_one.
    destruct (Ascii.eqb c x); [reflexivity|apply IH2].
  - exact IH.
Qed.

(** The table of the notebook's example, [{'!': '!!!', 'z': 's'}]. *)
Example translate_example :
  translate_with
    (maketrans [(str "!", str "!!!"); (str "z", str "s")])
    (str "colonization, realization, organization!")
  = Returned (str "colonisation, realisation, organisation!!!").
Proof. reflexivity. Qed.

(** X2. [str.translate] keeps a string in which no character is a key of
    the table. *)
Theorem translate_missing_keys (tbl : table) (s : pystr) :
  forallb (fun c => match table_get tbl c with
                    | None => true
                    | Some _ => false
                    end) s = true ->
  translate tbl s = s.
Proof.
  induction s as [|c t IH]; [reflexivity|]. cbn [forallb]. intros H.
  apply andb_true_iff in H as [Hc Ht]. unfold translate in *.
  cbn [flat_map]. rewrite (IH Ht).
  destruct (table_get tbl c); [discriminate|reflexivity].
Qed.

Lemma translate_missing_keys_witness :
  translate punctuation_spacer (str "no punctuation here")
  = str "no punctuation here".
Proof. apply translate_missing_keys. reflexivity. Defined.

Lemma translate_punct_spaced_strict (s : pystr) :
  punct_spaced (translate punctuation_spacer s).
Proof.
  induction s as [|c t IH]; intros i x Hi Hx; [destruct i; discriminate|].
  rewrite translate_cons in *. destruct (is_punct c) eqn:Ec; cbn [app] in *.
  - destruct i as [|[|i]]; cbn in Hi |- *.
    + reflexivity.
    + injection Hi as <-. discriminate Hx.
    + now apply (IH i x).
  - destruct i as [|i]; cbn in Hi |- *.
    + injection Hi as <-. congruence.
    + now apply (IH i x).
Qed.

(** X3. The punctuation step puts one space behind every period and
    comma and changes nothing else: the string grows by the number of
    periods and commas, and right after the step every period and comma
    is immediately followed by a space. *)
Theorem translate_spacer_step (s : pystr) :
  length (translate punctuation_spacer s) = length s + length (filter is_punct s)
  /\ punct_spaced (translate punctuation_spacer s)
  /\ filter (fun c => negb (Ascii.eqb c " ")) (translate punctuation_spacer s)
     = filter (fun c => negb (Ascii.eqb c " ")) s.
Proof.
  split; [|split; [apply translate_punct_spaced_strict|]].
  - induction s as [|c t IH]; [reflexivity|]. rewrite translate_cons.
    rewrite length_app, IH. cbn [filter length].
    destruct (is_punct c); cbn [length]; lia.
  - induction s as [|c t IH]; [reflexivity|]. rewrite translate_cons.
    rewrite filter_app, IH. cbn [filter].
    destruct (is_punct c) eqn:Ec; cbn [filter].
    + change (Ascii.eqb " " " ") with true. cbn [negb].
      destruct (negb (Ascii.eqb c " ")); reflexivity.
    + destruct (negb (Ascii.eqb c " ")); reflexivity.
Qed.

(** ** [str.split] and [str.join] *)

Lemma split_space c t : isspace c = true -> split (c :: t) = split t.
Proof. intros H. cbn [split]. now rewrite H. Qed.

Lemma split_one c : isspace c = false -> split [c] = [[c]].
Proof. intros H. cbn [split]. now rewrite H. Qed.

Lemma split_break c d t :
  isspace c = false -> isspace d = true ->
  split (c :: d :: t) = [c] :: split t.
Proof. intros Hc Hd. cbn [split]. now rewrite Hc, Hd. Qed.

Lemma split_word c d t :
  isspace c = false -> isspace d = false ->
  split (c :: d :: t)
  = match split (d :: t) with
    | w :: ws => (c :: w) :: ws
    | [] => [[c]]
    end.
Proof.
  intros Hc Hd.
  change (split (c :: d :: t))
    with (if isspace c then split (d :: t)
          else if isspace d then [c] :: split (d :: t)
               else match split (d :: t) with
                    | w :: ws => (c :: w) :: ws
                    | [] => [[c]]
                    end).
  now rewrite Hc, Hd.
Qed.

(** X4. [str.split()] returns words only: none is empty and none holds
    a whitespace character. *)
Theorem split_gives_words (s : pystr) : forallb is_word (split s) = true.
Proof.
  pattern s. apply joined_ind; clear s.
  - reflexivity.
  - intros c t Hc IH. now rewrite split_space.
  - intros c Hc. rewrite split_one by exact Hc. cbn. unfold nonspace.
    now rewrite Hc.
  - intros c d t Hc Hd IH. rewrite split_break by assumption.
    cbn [forallb]. rewrite IH. cbn. unfold nonspace. now rewrite Hc.
  - intros c d t Hc Hd IH. rewrite split_word by assumption.
    destruct (split (d :: t)) as [|w ws].
    + cbn. unfold nonspace. now rewrite Hc.
    + cbn [forallb] in *. apply andb_true_iff in IH as [Hw Hws].
      rewrite Hws, andb_true_r. unfold is_word in *.
      apply andb_true_iff in Hw as [_ Hw]. cbn [length forallb Nat.eqb negb].
      rewrite Hw. unfold nonspace. now rewrite Hc.
Qed.

(** X5. [str.split()] drops the whitespace and nothing else: the words,
    put end to end, are the characters of the string that are not
    whitespace, in their order. *)
Theorem split_keeps_nonspace (s : pystr) :
  concat (split s) = filter nonspace s.
Proof.
  pattern s. apply joined_ind; clear s.
  - reflexivity.
  - intros c t Hc IH. rewrite split_space by exact Hc. cbn [filter].
    unfold nonspace at 1. now rewrite Hc.
  - intros c Hc. rewrite split_one by exact Hc. cbn. unfold nonspace.
    now rewrite Hc.
  - intros c d t Hc Hd IH. rewrite split_break by assumption.
    cbn [concat filter app]. unfold nonspace at 1 2. rewrite Hc, Hd.
    cbn [negb]. now f_equal.
  - intros c d t Hc Hd IH. rewrite split_word by assumption.
    cbn [filter] in *. unfold nonspace at 1. rewrite Hc. cbn [negb].
    rewrite <- IH. destruct (split (d :: t)) as [|w ws]; reflexivity.
Qed.

Lemma split_of_word_then : forall w x r,
  is_word w = true -> isspace x = true ->
  split (w ++ x :: r) = w :: split r.
Proof.
  induction w as [|c w IH]; intros x r Hw Hx; [discriminate|].
  unfold is_word in Hw. cbn [length Nat.eqb negb andb forallb] in Hw.
  apply andb_true_iff in Hw as [Hc Hw]. apply negb_true_iff in Hc.
  destruct w as [|d w].
  - cbn [app]. now rewrite split_break.
  - cbn [forallb] in Hw. pose proof Hw as Hw'.
    apply andb_true_iff in Hw' as [Hd _]. apply negb_true_iff in Hd.
    cbn [app]. rewrite split_word by assumption.
    change (d :: w ++ x :: r) with ((d :: w) ++ x :: r).
    rewrite IH; [reflexivity| |exact Hx].
    unfold is_word. cbn [length Nat.eqb negb andb]. exact Hw.
Qed.

Lemma split_of_word w : is_word w = true -> split w = [w].
Proof.
  induction w as [|c w IH]; intros Hw; [discriminate|].
  unfold is_word in Hw. cbn [length Nat.eqb negb andb forallb] in Hw.
  apply andb_true_iff in Hw as [Hc Hw]. apply negb_true_iff in Hc.
  destruct w as [|d w]; [now apply split_one|].
  cbn [forallb] in Hw. pose proof Hw as Hw'.
  apply andb_true_iff in Hw' as [Hd _]. apply negb_true_iff in Hd.
  rewrite split_word by assumption. rewrite IH; [reflexivity|].
  unfold is_word. cbn [length Nat.eqb negb andb]. exact Hw.
Qed.

(** X6. Joining words with one space and splitting again gives the words
    back. *)
Theorem split_join_round_trip (words : list pystr) :
  forallb is_word words = true ->
  split (join (str " ") words) = words.
Proof.
  induction words as [|w rest IH]; [reflexivity|]. cbn [forallb].
  intros H. apply andb_true_iff in H as [Hw Hrest].
  cbn [join]. destruct rest as [|w' rest]; [now apply split_of_word|].
  change (w ++ str " " ++ join (str " ") (w' :: rest))
    with (w ++ " " :: join (str " ") (w' :: rest)).
  rewrite split_of_word_then by (exact Hw || reflexivity).
  now rewrite IH.
Qed.

Lemma split_join_round_trip_witness :
  forallb is_word [str "pleural"; str "effusion."] = true
  /\ split (str "pleural effusion.") = [str "pleural"; str "effusion."].
Proof.
  split; [reflexivity|].
  apply (split_join_round_trip [str "pleural"; str "effusion."]).
  reflexivity.
Defined.

(** X7. [str.split()] returns the empty list exactly on the strings that
    hold nothing but whitespace, the empty string among them. *)
Theorem split_nothing (s : pystr) :
  split s = [] <-> has_nonspace s = false.
Proof.
  split.
  - intros H. destruct (has_nonspace s) eqn:E; [|reflexivity].
    apply joined_nonempty in E. unfold joined in E. rewrite H in E.
    now contradiction E.
  - induction s as [|c t IH]; [reflexivity|]. intros H.
    unfold has_nonspace in *. cbn [existsb] in H.
    apply orb_false_iff in H as [Hc Ht]. apply negb_false_iff in Hc.
    rewrite split_space by exact Hc. now apply IH.
Qed.

Lemma normal_form_spaces_single : forall s,
  last_is isspace s = false ->
  (forall c, In c s -> isspace c = true -> c = " ") ->
  (forall i c d, nth_error s i = Some c -> nth_error s (S i) = Some d ->
                 isspace c && isspace d = false) ->
  spaces_single s = true.
Proof.
  induction s as [|c t IH]; intros Hl Ho Ha; [reflexivity|].
  rewrite spaces_single_cons. rewrite IH.
  - rewrite andb_true_r. destruct (isspace c) eqn:Hc; [|reflexivity].
    cbn [negb orb]. rewrite (Ho c) by (now left || exact Hc).
    rewrite Ascii.eqb_refl. cbn [andb].
    destruct t as [|d t].
    + rewrite last_is_one in Hl. congruence.
    + specialize (Ha 0 c d eq_refl eq_refl). rewrite Hc in Ha.
      unfold first_is. cbn in Ha |- *. now rewrite Ha.
  - now apply last_is_tail in Hl.
  - intros x Hx. apply Ho. now right.
  - intros i x y Hx Hy. apply (Ha (S i) x y); assumption.
Qed.

Lemma joined_fixed : forall s,
  spaces_single s = true -> first_is isspace s = false -> joined s = s.
Proof.
  intros s. pattern s. apply joined_ind; clear s.
  - reflexivity.
  - intros c t Hc _ _ H. unfold first_is in H. cbn in H. congruence.
  - intros c Hc _ _. now apply joined_one.
  - intros c d t Hc Hd IH Hs _. rewrite joined_break by assumption.
    apply spaces_single_tail in Hs. pose proof Hs as Hs'.
    rewrite spaces_single_cons, Hd in Hs'. cbn [negb orb] in Hs'.
    apply andb_true_iff in Hs' as [Hs1 Hs2].
    apply andb_true_iff in Hs1 as [Hsp Hf]. apply eqb_true in Hsp; subst d.
    rewrite IH.
    + destruct t; [discriminate Hf|reflexivity].
    + exact Hs2.
    + destruct t as [|e t]; [reflexivity|]. unfold first_is in *.
      cbn in Hf |- *. now apply negb_true_iff in Hf.
  - intros c d t Hc Hd IH Hs _. rewrite joined_word by assumption.
    f_equal. apply IH.
    + now apply spaces_single_tail in Hs.
    + unfold first_is. cbn. exact Hd.
Qed.

Lemma joined_normal_form (x : pystr) : ws_normal_form (joined x).
Proof.
  pose proof (joined_spaces_single x) as Hs. repeat split.
  - destruct (joined_head x) as [->|(c & r & -> & Hc)]; [reflexivity|].
    exact Hc.
  - now apply spaces_single_last.
  - intros c. now apply spaces_single_only_space.
  - intros i c d. now apply spaces_single_apart.
Qed.

(** X8. The whitespace step [' '.join(s.split())] leaves a string as it
    is exactly when the string is in whitespace normal form. *)
Theorem joined_fixed_iff_normal_form (s : pystr) :
  joined s = s <-> ws_normal_form s.
Proof.
  split.
  - intros H. rewrite <- H. apply joined_normal_form.
  - intros (Hf & Hl & Ho & Ha). apply joined_fixed; [|exact Hf].
    now apply normal_form_spaces_single.
Qed.

(** ** [str.replace] and the two substitutions *)

Section ReplaceLength.

Variables (o : ascii) (old' new : pystr).
Local Abbreviation old := (o :: old').

Lemma replace_length_le s :
  length new <= length old -> length (replace old new s) <= length s.
Proof.
  intros Hn. pattern s. apply (replace_ind o old'); clear s.
  - apply Nat.le_refl.
  - intros r IH. rewrite replace_hit, !length_app. lia.
  - intros c t E IH. rewrite replace_miss by exact E. cbn [length]. lia.
Qed.

Lemma replace_length_lt s :
  length new < length old -> occurs old s = true ->
  length (replace old new s) < length s.
Proof.
  intros Hn. pattern s. apply (replace_ind o old'); clear s.
  - discriminate.
  - intros r _ _. rewrite replace_hit, !length_app.
    pose proof (replace_length_le r). lia.
  - intros c t E IH H. cbn [occurs] in H. rewrite E in H. cbn [orb] in H.
    rewrite replace_miss by exact E. cbn [length]. specialize (IH H). lia.
Qed.

End ReplaceLength.

(** X9. Where the replacement is shorter than what it replaces, as in
    [re.sub('and/or', 'or', _)] and in [replace("..", ".")], the
    substitution leaves a string as it is exactly when the string does
    not contain what is replaced; otherwise the string gets shorter. *)
Theorem replace_fixed_iff_absent (old new s : pystr) :
  length new < length old ->
  (replace old new s = s <-> occurs old s = false)
  /\ length (replace old new s) <= length s.
Proof.
  intros Hn. destruct old as [|o old']; [cbn in Hn; lia|]. split.
  - split.
    + intros H. destruct (occurs (o :: old') s) eqn:E; [|reflexivity].
      pose proof (replace_length_lt o old' new s Hn E) as Hlt.
      rewrite H in Hlt. lia.
    + apply replace_absent.
  - apply replace_length_le. lia.
Qed.

Lemma replace_fixed_iff_absent_witness :
  length (str "or") < length (str "and/or")
  /\ (re_sub_and_or (str "effusion and or edema") = str "effusion and or edema"
      <-> occurs (str "and/or") (str "effusion and or edema") = false).
Proof.
  split; [cbn; lia|].
  apply (replace_fixed_iff_absent (str "and/or") (str "or")). cbn. lia.
Defined.

(** X10. [replace("..", ".")] never makes a string longer and never
    removes more than every second character. *)
Theorem squeeze_length (s : pystr) :
  length (squeeze s) <= length s /\ length s <= 2 * length (squeeze s).
Proof.
  pattern s. apply squeeze_ind; clear s.
  - cbn. lia.
  - intros r IH. rewrite squeeze_hit. cbn [length]. lia.
  - intros c t E IH. rewrite squeeze_miss by exact E. cbn [length]. lia.
Qed.

(** X11. [replace("..", ".")] removes periods only: the other characters
    stay as they are, in their order. *)
Theorem squeeze_keeps_other_characters (s : pystr) :
  filter (fun c => negb (is_period c)) (squeeze s)
  = filter (fun c => negb (is_period c)) s.
Proof.
  pattern s. apply squeeze_ind; clear s.
  - reflexivity.
  - intros r IH. rewrite squeeze_hit. cbn [filter].
    change (is_period ".") with true. cbn [negb]. exact IH.
  - intros c t E IH. rewrite squeeze_miss by exact E. cbn [filter].
    now rewrite IH.
Qed.

(** X12. The slash substitution is idempotent: the [" or "] it writes
    puts a space on both sides, so no slash is left between two letters
    and a second pass finds nothing to replace. *)
Theorem re_sub_slash_idempotent (s : pystr) :
  re_sub_slash (re_sub_slash s) = re_sub_slash s
  /\ no_letter_slash (re_sub_slash s) = true.
Proof.
  assert (H : no_letter_slash (re_sub_slash s) = true).
  { apply slash_no_letter_slash. auto. }
  split; [|exact H]. now apply no_letter_slash_fixed.
Qed.

Lemma slash_fixed_no_letter_slash : forall s p,
  re_sub_slash_from p s = s -> no_letter_slash_from p s = true.
Proof.
  induction s as [|c t IH]; intros p H; [reflexivity|].
  cbn [re_sub_slash_from] in H. rewrite nls_cons. unfold slash_emit in H.
  unfold first_is.
  destruct (Ascii.eqb c "/" && opt_is is_letter p
            && opt_is is_letter (hd_error t)) eqn:E.
  - exfalso. apply andb_true_iff in E as [E _].
    apply andb_true_iff in E as [E _]. apply eqb_true in E; subst c.
    cbn in H. discriminate H.
  - cbn [app] in H. injection H as H. cbn [negb andb]. now apply IH.
Qed.

(** X13. The slash substitution leaves a string as it is exactly when no
    slash of the string stands between two letters of [[a-zA-Z]]. *)
Theorem re_sub_slash_fixed_iff (s : pystr) :
  re_sub_slash s = s <-> no_letter_slash s = true.
Proof.
  split.
  - apply slash_fixed_no_letter_slash.
  - apply no_letter_slash_fixed.
Qed.

(** ** [clean] on empty input *)

Lemma has_nonspace_false_all_space s :
  has_nonspace s = false -> forallb isspace s = true.
Proof.
  induction s as [|c t IH]; [reflexivity|]. unfold has_nonspace in *.
  cbn [existsb forallb]. intros H. apply orb_false_iff in H as [Hc Ht].
  apply negb_false_iff in Hc. now rewrite Hc, IH.
Qed.

(** X14. [clean] returns the empty string exactly on the sentences that
    hold nothing but whitespace, the empty sentence among them. *)
Theorem clean_empty_iff (s : pystr) :
  clean s = [] <-> has_nonspace s = false.
Proof.
  split.
  - intros H. destruct (has_nonspace s) eqn:E; [|reflexivity].
    now apply clean_nonempty in E.
  - intros H. apply has_nonspace_false_all_space in H.
    rewrite <- (app_nil_r s). now rewrite clean_ws_lead.
Qed.

(** * The BioC collection *)

Section BioCProperties.

Variable Document : Type.
Variable text2document : pystr -> pystr -> Document.
Variable split_doc : Document -> Document.

Local Abbreviation add_clean := (add_clean_reports Document text2document split_doc).
Local Abbreviation add_raw := (add_reports Document text2document split_doc).

Lemma add_clean_reports_length : forall reports i documents,
  length (add_clean i reports documents) = length documents + length reports.
Proof.
  induction reports as [|r rest IH]; intros i documents; cbn [add_clean_reports].
  - cbn. lia.
  - rewrite IH, length_app. cbn. lia.
Qed.

Lemma add_clean_reports_old : forall reports i documents k,
  k < length documents ->
  nth_error (add_clean i reports documents) k = nth_error documents k.
Proof.
  induction reports as [|r rest IH]; intros i documents k Hk;
    cbn [add_clean_reports]; [reflexivity|].
  rewrite IH by (rewrite length_app; cbn; lia).
  now apply nth_error_app1.
Qed.

Lemma add_clean_reports_new : forall reports i documents k,
  nth_error (add_clean i reports documents) (length documents + k)
  = option_map
      (fun report => split_doc (text2document (str_of_nat (i + k)) (clean report)))
      (nth_error reports k).
Proof.
  induction reports as [|r rest IH]; intros i documents k;
    cbn [add_clean_reports].
  - rewrite (proj2 (nth_error_None _ _)) by lia. now destruct k.
  - destruct k as [|k].
    + rewrite !Nat.add_0_r, add_clean_reports_old
        by (rewrite length_app; cbn; lia).
      rewrite nth_error_app2, Nat.sub_diag by lia. reflexivity.
    + replace (length documents + S k)
        with (length (documents ++ [split_doc (text2document (str_of_nat i) (clean r))]) + k)
        by (rewrite length_app; cbn; lia).
      rewrite IH. cbn [nth_error]. now replace (S i + k) with (i + S k) by lia.
Qed.

End BioCProperties.

Lemma str_of_nat_injective i j : str_of_nat i = str_of_nat j -> i = j.
Proof.
  unfold str_of_nat, str. intros H.
  apply (f_equal string_of_list_ascii) in H.
  rewrite !string_of_list_ascii_of_string in H.
  apply (f_equal NilEmpty.uint_of_string) in H.
  rewrite !NilEmpty.usu in H. injection H as H.
  apply (f_equal Nat.of_uint) in H. now rewrite !Unsigned.of_to in H.
Qed.

(** X15. [get_bioc_collection] returns one document per report, in the
    order of the reports: the document at position [i] is made from the
    cleaned report at position [i], with the decimal digits of [i] as its
    id; no two positions get the same id.  An empty column gives an empty
    collection. *)
Theorem get_bioc_collection_documents
  (Document : Type) (text2document : pystr -> pystr -> Document)
  (split_doc : Document -> Document) (df : list pystr) :
  length (get_bioc_collection Document text2document split_doc df) = length df
  /\ (forall i,
        nth_error (get_bioc_collection Document text2document split_doc df) i
        = option_map
            (fun report => split_doc (text2document (str_of_nat i) (clean report)))
            (nth_error df i))
  /\ (forall i j, str_of_nat i = str_of_nat j -> i = j).
Proof.
  unfold get_bioc_collection. split; [|split].
  - now rewrite add_clean_reports_length.
  - intros i.
    exact (add_clean_reports_new Document text2document split_doc df 0 [] i).
  - apply str_of_nat_injective.
Qed.

(** X16. [get_bioc_collection] builds the collection that the loop of the
    first cells builds from the cleaned reports. *)
Theorem get_bioc_collection_cleans_first
  (Document : Type) (text2document : pystr -> pystr -> Document)
  (split_doc : Document -> Document) (df : list pystr) :
  get_bioc_collection Document text2document split_doc df
  = add_reports Document text2document split_doc 0 (map clean df) [].
Proof.
  unfold get_bioc_collection. generalize 0 (@nil Document).
  induction df as [|report rest IH]; intros i documents; [reflexivity|].
  cbn [add_clean_reports add_reports map]. apply IH.
Qed.

(** * Permutation importance *)

Lemma inject_length_succ (A : Type) (a : A) (l : list A) :
  (inject_Z (Z.of_nat (length (a :: l)))
   == inject_Z (Z.of_nat (length l)) + 1)%Q.
Proof.
  cbn [length]. rewrite Nat2Z.inj_succ. unfold Z.succ.
  now rewrite inject_Z_plus.
Qed.

Lemma inject_length_pos (A : Type) (a : A) (l : list A) :
  (0 < inject_Z (Z.of_nat (length (a :: l))))%Q.
Proof.
  change 0%Q with (inject_Z 0). rewrite <- Zlt_Qlt. cbn [length]. lia.
Qed.

Lemma inject_length_nonneg (A : Type) (l : list A) :
  (0 <= inject_Z (Z.of_nat (length l)))%Q.
Proof. change 0%Q with (inject_Z 0). rewrite <- Zle_Qle. lia. Qed.

Lemma sum_of_drops perf l :
  (fold_right Qplus 0 (map (fun p => perf - p) l)
   == inject_Z (Z.of_nat (length l)) * perf - fold_right Qplus 0 l)%Q.
Proof.
  induction l as [|p l IH].
  - cbn. ring.
  - rewrite inject_length_succ. cbn [map fold_right]. rewrite IH. ring.
Qed.

Lemma sum_le_bound perf l :
  forallb (fun p => Qle_bool p perf) l = true ->
  (fold_right Qplus 0 l <= inject_Z (Z.of_nat (length l)) * perf)%Q.
Proof.
  induction l as [|p l IH]; intros H.
  - cbn. rewrite Qmult_0_l. apply Qle_refl.
  - cbn [forallb] in H. apply andb_true_iff in H as [Hp Hl].
    apply Qle_bool_iff in Hp. specialize (IH Hl).
    rewrite inject_length_succ. cbn [fold_right].
    setoid_replace ((inject_Z (Z.of_nat (length l)) + 1) * perf)%Q
      with (perf + inject_Z (Z.of_nat (length l)) * perf)%Q by ring.
    now apply Qplus_le_compat.
Qed.

Lemma sum_ge_bound perf l :
  forallb (fun p => Qle_bool perf p) l = true ->
  (inject_Z (Z.of_nat (length l)) * perf <= fold_right Qplus 0 l)%Q.
Proof.
  induction l as [|p l IH]; intros H.
  - cbn. rewrite Qmult_0_l. apply Qle_refl.
  - cbn [forallb] in H. apply andb_true_iff in H as [Hp Hl].
    apply Qle_bool_iff in Hp. specialize (IH Hl).
    rewrite inject_length_succ. cbn [fold_right].
    setoid_replace ((inject_Z (Z.of_nat (length l)) + 1) * perf)%Q
      with (perf + inject_Z (Z.of_nat (length l)) * perf)%Q by ring.
    now apply Qplus_le_compat.
Qed.

Lemma mean_of_drops perf p0 rest :
  (mean (map (fun p => perf - p) (p0 :: rest))
   == perf - mean (p0 :: rest))%Q.
Proof.
  unfold mean. rewrite sum_of_drops, length_map.
  pose proof (inject_length_pos _ p0 rest) as Hn.
  field. intros E. rewrite E in Hn. now apply Qlt_irrefl in Hn.
Qed.

Lemma mean_le_bound perf p0 rest :
  forallb (fun p => Qle_bool p perf) (p0 :: rest) = true ->
  (mean (p0 :: rest) <= perf)%Q.
Proof.
  intros H. unfold mean. apply Qle_shift_div_r.
  - apply inject_length_pos.
  - rewrite Qmult_comm. now apply sum_le_bound.
Qed.

Lemma mean_ge_bound perf p0 rest :
  forallb (fun p => Qle_bool perf p) (p0 :: rest) = true ->
  (perf <= mean (p0 :: rest))%Q.
Proof.
  intros H. unfold mean. apply Qle_shift_div_l.
  - apply inject_length_pos.
  - rewrite Qmult_comm. now apply sum_ge_bound.
Qed.

(** C1. The importance of a feature is the absolute difference between
    the baseline concordance index and the arithmetic mean of the
    concordance indices of the [n] shuffled datasets: [n] times the mean
    is their sum, and the importance is [perf - mean] where the mean
    does not exceed the baseline and [mean - perf] where it does.  For
    the values of the notebook, in exact rational arithmetic, the mean
    is 0.6577 and the importance is 0.1605. *)
Theorem importance_formula (perf p0 : Q) (rest : list Q) :
  (inject_Z (Z.of_nat (length (p0 :: rest))) * mean (p0 :: rest)
   == fold_right Qplus 0 (p0 :: rest))%Q
  /\ ((mean (p0 :: rest) <= perf)%Q ->
      (importance perf (p0 :: rest) == perf - mean (p0 :: rest))%Q)
  /\ ((perf <= mean (p0 :: rest))%Q ->
      (importance perf (p0 :: rest) == mean (p0 :: rest) - perf)%Q)
  /\ (mean permuted_cindex == 6577 # 10000)%Q
  /\ (importance baseline_cindex permuted_cindex == 1605 # 10000)%Q.
Proof.
  split; [|split; [|split; [|split; reflexivity]]].
  - unfold mean. pose proof (inject_length_pos _ p0 rest) as Hn.
    field. intros E. rewrite E in Hn. now apply Qlt_irrefl in Hn.
  - intros H. unfold importance. apply Qabs_pos.
    rewrite <- (Qplus_opp_r (mean (p0 :: rest))).
    apply Qplus_le_compat; [exact H|apply Qle_refl].
  - intros H. unfold importance. rewrite Qabs_neg.
    + ring.
    + rewrite <- (Qplus_opp_r (mean (p0 :: rest))).
      apply Qplus_le_compat; [exact H|apply Qle_refl].
Qed.

Lemma importance_formula_witness :
  (importance (8182 # 10000) [(6749 # 10000)%Q; (6554 # 10000)%Q; (6428 # 10000)%Q]
   == (8182 # 10000) - (6577 # 10000))%Q.
Proof.
  rewrite (proj1 (proj2 (importance_formula (8182 # 10000) (6749 # 10000)
                           [(6554 # 10000)%Q; (6428 # 10000)%Q]))).
  - reflexivity.
  - vm_compute. discriminate.
Defined.

(** X17. When no shuffled dataset scores above the baseline, the
    importance is the mean of the drops [perf - perf_i] of the single
    permutations, the column "Importance" of the notebook's table. *)
Theorem importance_is_mean_of_drops (perf p0 : Q) (rest : list Q) :
  forallb (fun p => Qle_bool p perf) (p0 :: rest) = true ->
  (importance perf (p0 :: rest)
   == mean (map (fun p => perf - p) (p0 :: rest)))%Q.
Proof.
  intros H. unfold importance. rewrite mean_of_drops.
  apply Qabs_pos. apply mean_le_bound in H.
  rewrite <- (Qplus_opp_r (mean (p0 :: rest))).
  apply Qplus_le_compat; [exact H|apply Qle_refl].
Qed.

Lemma importance_is_mean_of_drops_witness :
  (importance baseline_cindex permuted_cindex
   == mean [(1433 # 10000)%Q; (1628 # 10000)%Q; (1754 # 10000)%Q])%Q.
Proof.
  rewrite (importance_is_mean_of_drops baseline_cindex (6749 # 10000)%Q
             [(6554 # 10000)%Q; (6428 # 10000)%Q] eq_refl).
  reflexivity.
Defined.

Lemma Qabs_sum_le l :
  (Qabs (fold_right Qplus 0 l) <= fold_right Qplus 0 (map Qabs l))%Q.
Proof.
  induction l as [|a l IH]; [apply Qle_refl|]. cbn [map fold_right].
  eapply Qle_trans; [apply Qabs_triangle|].
  apply Qplus_le_compat; [apply Qle_refl|exact IH].
Qed.

(** X18. In general the importance is at most the mean of the absolute
    differences [|perf - perf_i|] of the single permutations: a
    permutation that scores above the baseline cancels part of the drop
    of the others. *)
Theorem importance_at_most_mean_abs (perf p0 : Q) (rest : list Q) :
  (importance perf (p0 :: rest)
   <= mean (map (fun p => Qabs (perf - p)) (p0 :: rest)))%Q.
Proof.
  unfold importance. rewrite <- mean_of_drops.
  set (l := p0 :: rest). unfold mean. rewrite !length_map.
  pose proof (inject_length_pos _ p0 rest) as Hn. fold l in Hn.
  set (n := inject_Z (Z.of_nat (length l))) in *.
  unfold Qdiv. rewrite Qabs_Qmult.
  rewrite (Qabs_pos (/ n)) by (apply Qlt_le_weak, Qinv_lt_0_compat, Hn).
  apply Qmult_le_compat_r; [|apply Qlt_le_weak, Qinv_lt_0_compat, Hn].
  rewrite <- (map_map (fun p => perf - p)%Q Qabs). apply Qabs_sum_le.
Qed.

Lemma sum_permutation (l l' : list Q) :
  Permutation l l' ->
  (fold_right Qplus 0 l == fold_right Qplus 0 l')%Q.
Proof.
  induction 1 as [|a l l' _ IH|a b l|l l' l'' _ IH1 _ IH2]; cbn [fold_right].
  - reflexivity.
  - now rewrite IH.
  - ring.
  - now rewrite IH1.
Qed.

(** X19. The importance does not depend on the order in which the
    shuffled datasets are scored. *)
Theorem importance_order_irrelevant (perf : Q) (l l' : list Q) :
  Permutation l l' -> (importance perf l == importance perf l')%Q.
Proof.
  intros H. unfold importance, mean.
  rewrite (sum_permutation l l' H), (Permutation_length H). reflexivity.
Qed.

Lemma importance_order_irrelevant_witness :
  (importance baseline_cindex
     [(6428 # 10000)%Q; (6749 # 10000)%Q; (6554 # 10000)%Q]
   == importance baseline_cindex permuted_cindex)%Q.
Proof.
  apply importance_order_irrelevant. unfold permuted_cindex.
  apply Permutation_sym, (Permutation_cons_app [_] [_]). apply perm_swap.
Defined.

Lemma forallb_both (A : Type) (f g : A -> bool) (l : list A) :
  forallb (fun a => f a && g a) l = true ->
  forallb f l = true /\ forallb g l = true.
Proof.
  induction l as [|a l IH]; [now split|]. cbn [forallb]. intros H.
  apply andb_true_iff in H as [Ha Hl]. apply andb_true_iff in Ha as [Hf Hg].
  destruct (IH Hl) as [IH1 IH2]. now rewrite Hf, Hg, IH1, IH2.
Qed.

(** X20. For concordance indices, which lie between 0 and 1, the
    importance lies between 0 and 1 as well. *)
Theorem importance_between_0_and_1 (perf p0 : Q) (rest : list Q) :
  Qle_bool 0 perf && Qle_bool perf 1 = true ->
  forallb (fun p => Qle_bool 0 p && Qle_bool p 1) (p0 :: rest) = true ->
  (0 <= importance perf (p0 :: rest) <= 1)%Q.
Proof.
  intros Hperf Hl. unfold importance. split; [apply Qabs_nonneg|].
  apply andb_true_iff in Hperf as [H0 H1].
  apply Qle_bool_iff in H0, H1.
  apply forallb_both in Hl as [Hlo Hhi].
  apply mean_ge_bound in Hlo. apply mean_le_bound in Hhi.
  set (m := mean (p0 :: rest)) in *.
  apply Qabs_Qle_condition. split.
  - setoid_replace (- (1))%Q with (0 + - (1))%Q by ring.
    unfold Qminus. apply Qplus_le_compat; [exact H0|].
    now apply Qopp_le_compat.
  - setoid_replace 1%Q with (1 + - 0)%Q by ring.
    unfold Qminus. apply Qplus_le_compat; [exact H1|].
    now apply Qopp_le_compat.
Qed.

Lemma importance_between_0_and_1_witness :
  (0 <= importance baseline_cindex permuted_cindex <= 1)%Q.
Proof.
  apply (importance_between_0_and_1 baseline_cindex (6749 # 10000)%Q
           [(6554 # 10000)%Q; (6428 # 10000)%Q]); reflexivity.
Defined.

(** * Concordance index *)

Lemma Qlt_bool_iff a b : Qlt_bool a b = true <-> (a < b)%Q.
Proof.
  unfold Qlt_bool. rewrite negb_true_iff. split.
  - intros H. apply Qnot_le_lt. intros Hle.
    apply Qle_bool_iff in Hle. congruence.
  - intros H. destruct (Qle_bool b a) eqn:E; [|reflexivity].
    apply Qle_bool_iff in E. now apply Qlt_not_le in H.
Qed.

Lemma Qlt_bool_false_iff a b : Qlt_bool a b = false <-> (b <= a)%Q.
Proof.
  unfold Qlt_bool. rewrite negb_false_iff. apply Qle_bool_iff.
Qed.

(** Of [a < b], [a == b] and [b < a] exactly one holds. *)
Lemma Q_three_ways a b :
  Nat.b2n (Qlt_bool a b) + Nat.b2n (Qeq_bool a b) + Nat.b2n (Qlt_bool b a) = 1.
Proof.
  destruct (Q_dec a b) as [[H|H]|H].
  - rewrite (proj2 (Qlt_bool_iff a b) H).
    rewrite (proj2 (Qlt_bool_false_iff b a)) by now apply Qlt_le_weak.
    destruct (Qeq_bool a b) eqn:E; [|reflexivity].
    apply Qeq_bool_iff in E. rewrite E in H. now apply Qlt_irrefl in H.
  - rewrite (proj2 (Qlt_bool_iff b a) H).
    rewrite (proj2 (Qlt_bool_false_iff a b)) by now apply Qlt_le_weak.
    destruct (Qeq_bool a b) eqn:E; [|reflexivity].
    apply Qeq_bool_iff in E. rewrite E in H. now apply Qlt_irrefl in H.
  - rewrite (proj2 (Qeq_bool_iff a b) H).
    rewrite (proj2 (Qlt_bool_false_iff a b)) by (rewrite H; apply Qle_refl).
    rewrite (proj2 (Qlt_bool_false_iff b a)) by (rewrite H; apply Qle_refl).
    reflexivity.
Qed.

Lemma Qlt_bool_opp a b : Qlt_bool (- a) (- b) = Qlt_bool b a.
Proof.
  destruct (Qlt_bool b a) eqn:E.
  - apply Qlt_bool_iff in E. apply Qlt_bool_iff.
    now apply Qopp_lt_compat.
  - apply Qlt_bool_false_iff in E. apply Qlt_bool_false_iff.
    now apply Qopp_le_compat.
Qed.

Lemma Z_two_ways x y :
  (x =? y)%Z = false -> Nat.b2n (x <? y)%Z + Nat.b2n (y <? x)%Z = 1.
Proof.
  intros H. apply Z.eqb_neq in H.
  destruct (Z.ltb_spec x y), (Z.ltb_spec y x); cbn; lia.
Qed.

(** A permissible pair is concordant, concordant for the opposite scores,
    or a tie, and only one of the three. *)
Lemma pair_three_ways a b :
  Nat.b2n (concordant a b)
  + Nat.b2n (concordant (opposite_risk a) (opposite_risk b))
  + Nat.b2n (risk_tie a b)
  = Nat.b2n (permissible a b).
Proof.
  unfold concordant, risk_tie, opposite_risk, permissible. cbn [fst snd].
  destruct (fst a =? fst b)%Z eqn:E; [reflexivity|]. cbn [negb andb].
  rewrite !Qlt_bool_opp.
  pose proof (Z_two_ways _ _ E) as Hz.
  pose proof (Q_three_ways (snd a) (snd b)) as Hq.
  destruct (fst a <? fst b)%Z, (fst b <? fst a)%Z,
    (Qlt_bool (snd a) (snd b)), (Qlt_bool (snd b) (snd a)),
    (Qeq_bool (snd a) (snd b)); cbn in *; lia.
Qed.

Lemma filter_three_ways (A : Type) (f g h k : A -> bool) (l : list A) :
  (forall b, Nat.b2n (f b) + Nat.b2n (g b) + Nat.b2n (h b) = Nat.b2n (k b)) ->
  length (filter f l) + length (filter g l) + length (filter h l)
  = length (filter k l).
Proof.
  intros H. induction l as [|b l IH]; [reflexivity|]. cbn [filter].
  specialize (H b).
  destruct (f b), (g b), (h b), (k b); cbn in H |- *; lia.
Qed.

Lemma count_pairs_three_ways f g h k l :
  (forall a b, Nat.b2n (f a b) + Nat.b2n (g a b) + Nat.b2n (h a b)
               = Nat.b2n (k a b)) ->
  count_pairs f l + count_pairs g l + count_pairs h l = count_pairs k l.
Proof.
  intros H. induction l as [|a l IH]; [reflexivity|]. cbn [count_pairs].
  pose proof (filter_three_ways _ (f a) (g a) (h a) (k a) l (H a)). lia.
Qed.

Lemma filter_map_length (A B : Type) (g : A -> B) (f : B -> bool) l :
  length (filter f (map g l)) = length (filter (fun a => f (g a)) l).
Proof.
  induction l as [|a l IH]; [reflexivity|]. cbn [map filter].
  destruct (f (g a)); cbn [length]; now rewrite IH.
Qed.

Lemma count_pairs_map f g l :
  count_pairs f (map g l) = count_pairs (fun a b => f (g a) (g b)) l.
Proof.
  induction l as [|a l IH]; [reflexivity|]. cbn [map count_pairs].
  now rewrite IH, filter_map_length.
Qed.

Lemma count_pairs_ext f g l :
  (forall a b, f a b = g a b) -> count_pairs f l = count_pairs g l.
Proof.
  intros H. induction l as [|a l IH]; [reflexivity|]. cbn [count_pairs].
  rewrite IH. f_equal. f_equal. apply filter_ext. apply H.
Qed.

Lemma permissible_opposite a b :
  permissible (opposite_risk a) (opposite_risk b) = permissible a b.
Proof. reflexivity. Qed.

Lemma risk_tie_opposite a b :
  risk_tie (opposite_risk a) (opposite_risk b) = risk_tie a b.
Proof.
  unfold risk_tie, opposite_risk, permissible. cbn [fst snd]. f_equal.
  destruct (Qeq_bool (snd a) (snd b)) eqn:E.
  - apply Qeq_bool_iff in E. apply Qeq_bool_iff. now rewrite E.
  - destruct (Qeq_bool (- snd a) (- snd b)) eqn:E'; [|reflexivity].
    apply Qeq_bool_iff in E'.
    assert (H : (snd a == snd b)%Q).
    { rewrite <- (Qopp_involutive (snd a)), E'. apply Qopp_involutive. }
    apply Qeq_bool_iff in H. congruence.
Qed.

Lemma count_pairs_zero f l :
  count_pairs f l = 0 -> forall a b, In a l -> In b l -> a <> b ->
  f a b = false \/ f b a = false.
Proof.
  induction l as [|x l IH]; intros H a b Ha Hb Hab; [destruct Ha|].
  cbn [count_pairs] in H.
  assert (H1 : length (filter (f x) l) = 0) by lia.
  assert (H2 : count_pairs f l = 0) by lia.
  apply length_zero_iff_nil in H1.
  assert (Hx : forall y, In y l -> f x y = false).
  { intros y Hy. destruct (f x y) eqn:E; [|reflexivity].
    assert (Hin : In y (filter (f x) l)) by (apply filter_In; auto).
    rewrite H1 in Hin. destruct Hin. }
  destruct Ha as [->|Ha], Hb as [->|Hb].
  - congruence.
  - left. now apply Hx.
  - right. now apply Hx.
  - now apply IH.
Qed.

Lemma Qnat_plus n m : (Qnat (n + m) == Qnat n + Qnat m)%Q.
Proof. unfold Qnat. now rewrite Nat2Z.inj_add, inject_Z_plus. Qed.

Lemma Qnat_nonneg n : (0 <= Qnat n)%Q.
Proof. unfold Qnat. change 0%Q with (inject_Z 0). rewrite <- Zle_Qle. lia. Qed.

Lemma Qnat_pos n : n <> 0 -> (0 < Qnat n)%Q.
Proof.
  intros H. unfold Qnat. change 0%Q with (inject_Z 0).
  rewrite <- Zlt_Qlt. lia.
Qed.

Lemma counts_total l :
  (Qnat (count_pairs concordant l)
   + Qnat (count_pairs concordant (map opposite_risk l))
   + Qnat (count_pairs risk_tie l)
   == Qnat (count_pairs permissible l))%Q.
Proof.
  rewrite <- !Qnat_plus, count_pairs_map.
  now rewrite (count_pairs_three_ways _ _ _ permissible l pair_three_ways).
Qed.

Lemma count_pairs_ext_in f g l :
  (forall a b, In a l -> In b l -> f a b = g a b) ->
  count_pairs f l = count_pairs g l.
Proof.
  induction l as [|a l IH]; intros H; [reflexivity|]. cbn [count_pairs].
  rewrite IH by (intros x y Hx Hy; apply H; now right).
  f_equal. f_equal. apply filter_ext_in. intros b Hb.
  apply H; [now left|now right].
Qed.

Lemma cindex_value l :
  count_pairs permissible l <> 0 ->
  cindex l
  = Some ((Qnat (count_pairs concordant l)
           + (1 # 2) * Qnat (count_pairs risk_tie l))
          / Qnat (count_pairs permissible l))%Q.
Proof.
  intros H. unfold cindex. apply Nat.eqb_neq in H. now rewrite H.
Qed.

(** X21. The concordance index lies between 0 and 1; the division fails,
    for want of a permissible pair, only when all patients have the same
    outcome. *)
Theorem cindex_between_0_and_1 (patients : list (Z * Q)) :
  match cindex patients with
  | Some c => (0 <= c <= 1)%Q
  | None => forall a b, In a patients -> In b patients -> fst a = fst b
  end.
Proof.
  unfold cindex.
  destruct (Nat.eqb (count_pairs permissible patients) 0) eqn:E.
  - apply Nat.eqb_eq in E. intros a b Ha Hb.
    destruct (Z.eq_dec (fst a) (fst b)) as [Heq|Hne]; [exact Heq|].
    assert (Hab : a <> b) by congruence.
    destruct (count_pairs_zero _ _ E a b Ha Hb Hab) as [H|H];
      unfold permissible in H; apply negb_false_iff, Z.eqb_eq in H; congruence.
  - apply Nat.eqb_neq in E. pose proof (Qnat_pos _ E) as HP.
    pose proof (counts_total patients) as Ht.
    pose proof (Qnat_nonneg (count_pairs concordant patients)) as HC.
    pose proof (Qnat_nonneg (count_pairs concordant (map opposite_risk patients)))
      as HC'.
    pose proof (Qnat_nonneg (count_pairs risk_tie patients)) as HT.
    set (C := Qnat (count_pairs concordant patients)) in *.
    set (C' := Qnat (count_pairs concordant (map opposite_risk patients))) in *.
    set (T := Qnat (count_pairs risk_tie patients)) in *.
    set (P := Qnat (count_pairs permissible patients)) in *.
    assert (HT2 : (0 <= (1 # 2) * T)%Q).
    { apply Qmult_le_0_compat; [discriminate|exact HT]. }
    split.
    + apply Qle_shift_div_l; [exact HP|]. rewrite Qmult_0_l.
      setoid_replace 0%Q with (0 + 0)%Q by ring.
      now apply Qplus_le_compat.
    + apply Qle_shift_div_r; [exact HP|]. rewrite Qmult_1_l, <- Ht.
      setoid_replace (C + (1 # 2) * T)%Q
        with ((C + 0) + ((1 # 2) * T + 0))%Q by ring.
      setoid_replace (C + C' + T)%Q
        with ((C + C') + ((1 # 2) * T + (1 # 2) * T))%Q by ring.
      apply Qplus_le_compat; apply Qplus_le_compat;
        assumption || apply Qle_refl.
Qed.

(** X22. Changing the sign of every risk score, which reverses their
    ranking, turns the concordance index [c] into [1 - c]. *)
Theorem cindex_of_opposite_scores (patients : list (Z * Q)) :
  match cindex patients, cindex (map opposite_risk patients) with
  | Some c, Some c' => (c' == 1 - c)%Q
  | None, None => True
  | _, _ => False
  end.
Proof.
  assert (HP : count_pairs permissible (map opposite_risk patients)
               = count_pairs permissible patients).
  { rewrite count_pairs_map. apply count_pairs_ext, permissible_opposite. }
  assert (HT : count_pairs risk_tie (map opposite_risk patients)
               = count_pairs risk_tie patients).
  { rewrite count_pairs_map. apply count_pairs_ext, risk_tie_opposite. }
  unfold cindex. rewrite HP, HT.
  destruct (Nat.eqb (count_pairs permissible patients) 0) eqn:E; [exact I|].
  apply Nat.eqb_neq in E. pose proof (Qnat_pos _ E) as Hpos.
  rewrite <- (counts_total patients) in *.
  set (C := Qnat (count_pairs concordant patients)) in *.
  set (C' := Qnat (count_pairs concordant (map opposite_risk patients))) in *.
  set (T := Qnat (count_pairs risk_tie patients)) in *.
  field. intros H. rewrite H in Hpos. now apply Qlt_irrefl in Hpos.
Qed.

(** X23. A model that gives every patient the same risk score has
    concordance index one half. *)
Theorem cindex_of_constant_score (q : Q) (patients : list (Z * Q)) :
  forallb (fun a => Qeq_bool (snd a) q) patients = true ->
  match cindex patients with
  | Some c => (c == 1 # 2)%Q
  | None => True
  end.
Proof.
  intros H.
  assert (Hq : forall a, In a patients -> (snd a == q)%Q).
  { intros a Ha. apply Qeq_bool_iff.
    now apply (proj1 (forallb_forall _ _) H). }
  assert (HC : count_pairs concordant patients = 0).
  { rewrite (count_pairs_ext_in concordant (fun _ _ => false)).
    - clear. induction patients as [|a l IH]; [reflexivity|].
      cbn [count_pairs]. rewrite IH, Nat.add_0_r. clear.
      induction l as [|b l IHl]; [reflexivity|exact IHl].
    - intros a b Ha Hb. unfold concordant.
      rewrite (proj2 (Qlt_bool_false_iff (snd a) (snd b)))
        by (rewrite (Hq a Ha), (Hq b Hb); apply Qle_refl).
      rewrite (proj2 (Qlt_bool_false_iff (snd b) (snd a)))
        by (rewrite (Hq a Ha), (Hq b Hb); apply Qle_refl).
      apply andb_false_r. }
  assert (HT : count_pairs risk_tie patients = count_pairs permissible patients).
  { apply count_pairs_ext_in. intros a b Ha Hb. unfold risk_tie.
    rewrite (proj2 (Qeq_bool_iff (snd a) (snd b)))
      by now rewrite (Hq a Ha), (Hq b Hb).
    apply andb_true_r. }
  unfold cindex. rewrite HC, HT.
  destruct (Nat.eqb (count_pairs permissible patients) 0) eqn:E; [exact I|].
  apply Nat.eqb_neq in E. pose proof (Qnat_pos _ E) as Hpos.
  set (P := Qnat (count_pairs permissible patients)) in *.
  change (Qnat 0) with 0%Q. field. intros H0. rewrite H0 in Hpos.
  now apply Qlt_irrefl in Hpos.
Qed.

Lemma cindex_of_constant_score_witness :
  cindex [(1%Z, (1 # 2)%Q); (0%Z, (1 # 2)%Q); (1%Z, (1 # 2)%Q)]
  = Some ((0 + (1 # 2) * 2) / 2)%Q
  /\ match cindex [(1%Z, (1 # 2)%Q); (0%Z, (1 # 2)%Q); (1%Z, (1 # 2)%Q)] with
     | Some c => (c == 1 # 2)%Q
     | None => True
     end.
Proof.
  split; [reflexivity|].
  apply (cindex_of_constant_score (1 # 2)%Q). reflexivity.
Defined.

(** * The table of NegBio labels *)

Lemma str_eqb_eq a b : str_eqb a b = true <-> a = b.
Proof.
  revert b. induction a as [|x a IH]; intros [|y b]; cbn [str_eqb];
    try (split; [discriminate|congruence]); [now split|].
  rewrite andb_true_iff, IH, Ascii.eqb_eq. split.
  - now intros [-> ->].
  - intros H. injection H as -> ->. now split.
Qed.

Lemma str_eqb_refl a : str_eqb a a = true.
Proof. now apply str_eqb_eq. Qed.

Lemma str_eqb_neq a b : str_eqb a b = false <-> a <> b.
Proof.
  split.
  - intros H E. apply str_eqb_eq in E. congruence.
  - intros H. destruct (str_eqb a b) eqn:E; [|reflexivity].
    apply str_eqb_eq in E. contradiction.
Qed.

(** A value stored under a key is the value found under that key; the
    other keys are as before. *)
Lemma dict_get_set (V : Type) k k' (v : V) d :
  dict_get k (dict_set k' v d)
  = if str_eqb k' k then Some v else dict_get k d.
Proof.
  induction d as [|[k0 v0] rest IH]; cbn [dict_set dict_get];
    [reflexivity|].
  destruct (str_eqb k0 k') eqn:E0; cbn [dict_get].
  - apply str_eqb_eq in E0; subst k0. now destruct (str_eqb k' k).
  - rewrite IH. destruct (str_eqb k0 k) eqn:E1; [|reflexivity].
    apply str_eqb_eq in E1; subst k0.
    apply str_eqb_neq in E0.
    destruct (str_eqb k' k) eqn:E2; [|reflexivity].
    apply str_eqb_eq in E2. congruence.
Qed.

Lemma dict_get_absent k (d : list (pystr * pystr)) :
  existsb (fun item => str_eqb (fst item) k) d = false -> dict_get k d = None.
Proof.
  induction d as [|[k0 v0] rest IH]; [reflexivity|]. cbn [existsb fst dict_get].
  intros H. apply orb_false_iff in H as [H1 H2]. rewrite H1. auto.
Qed.

Lemma skipn_prefix (pre t : pystr) : skipn (length pre) (pre ++ t) = t.
Proof. induction pre as [|c pre IH]; [reflexivity|exact IH]. Qed.

Lemma infons_dictionary_get pre cat : forall infons dictionary,
  length pre = 9 ->
  unique_keys infons = true ->
  forallb (fun item => starts_with pre (fst item)) infons = true ->
  dict_get cat
    (fold_left
       (fun dictionary item =>
          dict_set (skipn 9 (fst item)) (snd item) dictionary)
       infons dictionary)
  = match dict_get (pre ++ cat) infons with
    | Some val => Some val
    | None => dict_get cat dictionary
    end.
Proof.
  induction infons as [|[k v] rest IH]; intros dictionary Hpre Hu Hp;
    [reflexivity|].
  cbn [unique_keys forallb fst] in Hu, Hp.
  apply andb_true_iff in Hu as [Hk Hu]. apply andb_true_iff in Hp as [Hs Hp].
  apply negb_true_iff in Hk.
  cbn [fold_left fst snd dict_get]. rewrite (IH _ Hpre Hu Hp).
  destruct (starts_with_inv _ _ Hs) as [t ->].
  rewrite <- Hpre, skipn_prefix, dict_get_set.
  destruct (str_eqb (pre ++ t) (pre ++ cat)) eqn:E.
  - apply str_eqb_eq in E. rewrite <- E, (dict_get_absent _ _ Hk).
    apply app_inv_head in E. subst t. now rewrite str_eqb_refl.
  - apply str_eqb_neq in E.
    destruct (str_eqb t cat) eqn:E'; [|reflexivity].
    apply str_eqb_eq in E'. subst t. contradiction.
Qed.

(** X24. When the keys of [doc.infons] all start with the same nine
    characters, as with the prefix [CheXpert/], cutting the first nine
    characters off loses nothing: the dictionary of the loop holds under
    a category what the infons hold under the prefixed category. *)
Theorem infons_dictionary_lookup (pre cat : pystr)
  (infons : list (pystr * pystr)) :
  Nat.eqb (length pre) 9 = true ->
  unique_keys infons = true ->
  forallb (fun item => starts_with pre (fst item)) infons = true ->
  dict_get cat (infons_dictionary infons) = dict_get (pre ++ cat) infons.
Proof.
  intros Hpre Hu Hp. apply Nat.eqb_eq in Hpre. unfold infons_dictionary.
  rewrite (infons_dictionary_get pre cat infons [] Hpre Hu Hp).
  now destruct (dict_get (pre ++ cat) infons).
Qed.

Lemma infons_dictionary_lookup_witness :
  dict_get (str "Edema")
    (infons_dictionary [(str "CheXpert/Edema", str "Positive");
                        (str "CheXpert/Fracture", str "Uncertain")])
  = Some (str "Positive").
Proof.
  rewrite (infons_dictionary_lookup (str "CheXpert/") (str "Edema")
             [(str "CheXpert/Edema", str "Positive");
              (str "CheXpert/Fracture", str "Uncertain")]
             eq_refl eq_refl eq_refl).
  reflexivity.
Defined.

(** X25. The table of predictions has a column for a category exactly
    when some document carries a label for it; for another category the
    lookup fails.  In such a column the cell of a document is [True]
    exactly when NegBio's label of the document for the category is
    [Positive]; it is [False] exactly when the label is [Negative] or
    [Uncertain] or the document has no label for it, so an uncertain
    finding cannot be told from a negative one. *)
Theorem negbio_pred_flags (pre cat : pystr)
  (collection : list (list (pystr * pystr))) (i : nat)
  (infons : list (pystr * pystr)) :
  Nat.eqb (length pre) 9 = true ->
  prefixed_infons pre collection = true ->
  nth_error collection i = Some infons ->
  if existsb (fun infons => match dict_get (pre ++ cat) infons with
                            | Some _ => true
                            | None => false
                            end) collection
  then (negbio_pred_cell collection i cat = Some (Flag true)
        <-> dict_get (pre ++ cat) infons = Some (str "Positive"))
       /\ (negbio_pred_cell collection i cat = Some (Flag false)
           <-> dict_get (pre ++ cat) infons = None
               \/ dict_get (pre ++ cat) infons = Some (str "Negative")
               \/ dict_get (pre ++ cat) infons = Some (str "Uncertain"))
  else negbio_pred_cell collection i cat = None.
Proof.
  intros Hpre Hall Hi. apply Nat.eqb_eq in Hpre.
  assert (Hget : forall doc, In doc collection ->
            dict_get cat (infons_dictionary doc) = dict_get (pre ++ cat) doc).
  { intros doc Hdoc. unfold prefixed_infons in Hall.
    pose proof (proj1 (forallb_forall _ _) Hall doc Hdoc) as Hdoc'.
    apply andb_true_iff in Hdoc' as [Hu Hp]. unfold infons_dictionary.
    rewrite (infons_dictionary_get pre cat doc [] Hpre Hu Hp).
    now destruct (dict_get (pre ++ cat) doc). }
  assert (Hcol : existsb (carries cat) collection
                 = existsb (fun infons => match dict_get (pre ++ cat) infons with
                                          | Some _ => true
                                          | None => false
                                          end) collection).
  { clear Hi. induction collection as [|doc rest IH]; [reflexivity|].
    cbn [existsb]. unfold carries at 1. rewrite Hget by now left.
    f_equal. apply IH.
    - unfold prefixed_infons in *. cbn [forallb] in Hall.
      now apply andb_true_iff in Hall.
    - intros d Hd. apply Hget. now right. }
  unfold negbio_pred_cell. rewrite Hcol, Hi. clear Hcol Hall.
  destruct (existsb _ collection); [|reflexivity].
  unfold appended_cell. rewrite (Hget infons (nth_error_In _ _ Hi)).
  destruct (dict_get (pre ++ cat) infons) as [val|].
  2:{ cbn. split; split; intros H; try discriminate H; tauto. }
  cbn [replace_cell].
  destruct (str_eqb val (str "Positive")) eqn:E1.
  { apply str_eqb_eq in E1; subst val. cbn. split; split; intros H;
      try discriminate H; try reflexivity.
    destruct H as [H|[H|H]]; discriminate H. }
  cbn [replace_cell].
  destruct (str_eqb val (str "Negative")) eqn:E2.
  { apply str_eqb_eq in E2; subst val. cbn. split; split; intros H;
      try discriminate H; try reflexivity. tauto. }
  cbn [replace_cell].
  destruct (str_eqb val (str "Uncertain")) eqn:E3.
  { apply str_eqb_eq in E3; subst val. cbn. split; split; intros H;
      try discriminate H; try reflexivity. tauto. }
  cbn [fillna_cell]. apply str_eqb_neq in E1, E2, E3.
  split; split; intros H; try discriminate H.
  - exfalso. injection H as H. apply E1. exact H.
  - exfalso. destruct H as [H|[H|H]]; [discriminate H| |];
      injection H as H; [apply E2|apply E3]; exact H.
Qed.

Lemma negbio_pred_flags_witness :
  negbio_pred_cell
    [[(str "CheXpert/Edema", str "Positive")];
     [(str "CheXpert/Fracture", str "Uncertain")]]
    1 (str "Edema")
  = Some (Flag false)
  /\ negbio_pred_cell
       [[(str "CheXpert/Edema", str "Positive")];
        [(str "CheXpert/Fracture", str "Uncertain")]]
       1 (str "Pneumonia")
     = None.
Proof.
  split.
  - apply (proj2 (negbio_pred_flags (str "CheXpert/") (str "Edema")
                    [[(str "CheXpert/Edema", str "Positive")];
                     [(str "CheXpert/Fracture", str "Uncertain")]]
                    1 [(str "CheXpert/Fracture", str "Uncertain")]
                    eq_refl eq_refl eq_refl)).
    left. reflexivity.
  - exact (negbio_pred_flags (str "CheXpert/") (str "Pneumonia")
             [[(str "CheXpert/Edema", str "Positive")];
              [(str "CheXpert/Fracture", str "Uncertain")]]
             1 [(str "CheXpert/Fracture", str "Uncertain")]
             eq_refl eq_refl eq_refl).
Defined.

(** * Input for the text classifier *)

Lemma no_separator_nth q : forall i,
  forallb (fun t => negb (str_eqb t separator_token)) q = true ->
  nth_error q i <> Some separator_token.
Proof.
  induction q as [|t q IH]; intros i H; [destruct i; discriminate|].
  cbn [forallb] in H. apply andb_true_iff in H as [Ht Hq].
  destruct i as [|i]; cbn [nth_error].
  - intros E. injection E as ->. now rewrite str_eqb_refl in Ht.
  - now apply IH.
Qed.

(** X26. In the combined token list the classification token comes
    first and, when no token of the question is the separator, the first
    separator stands right behind the question: the question and the
    passage are read back from the list as the tokens before and behind
    that separator. *)
Theorem combine_tokens_round_trip (q_tokens p_tokens : list pystr) :
  forallb (fun t => negb (str_eqb t separator_token)) q_tokens = true ->
  let tokens := combine_tokens q_tokens p_tokens in
  nth_error tokens 0 = Some classification_token
  /\ nth_error tokens (S (length q_tokens)) = Some separator_token
  /\ (forall i, i <= length q_tokens ->
                nth_error tokens i <> Some separator_token)
  /\ firstn (length q_tokens) (skipn 1 tokens) = q_tokens
  /\ skipn (S (S (length q_tokens))) tokens = p_tokens
  /\ length tokens = 2 + length q_tokens + length p_tokens.
Proof.
  intros H tokens.
  assert (E : tokens = classification_token
                       :: q_tokens ++ separator_token :: p_tokens).
  { unfold tokens, combine_tokens. cbn [app].
    now rewrite <- app_assoc. }
  rewrite E. clear E tokens. repeat split.
  - cbn [nth_error]. rewrite nth_error_app2, Nat.sub_diag by lia. reflexivity.
  - intros i Hi. destruct i as [|i]; [discriminate|]. cbn [nth_error].
    rewrite nth_error_app1 by lia. now apply no_separator_nth.
  - cbn [skipn]. rewrite firstn_app, Nat.sub_diag, firstn_all. cbn [firstn].
    apply app_nil_r.
  - rewrite skipn_cons, skipn_app, skipn_all2 by lia.
    replace (S (length q_tokens) - length q_tokens) with 1 by lia.
    reflexivity.
  - cbn [length]. rewrite length_app. cbn [length]. lia.
Qed.

Lemma combine_tokens_round_trip_witness :
  skipn 8 (combine_tokens
             [str "How"; str "old"; str "is"; str "the"; str "patient"; str "?"]
             [str "The"; str "patient"])
  = [str "The"; str "patient"].
Proof.
  apply (combine_tokens_round_trip
           [str "How"; str "old"; str "is"; str "the"; str "patient"; str "?"]
           [str "The"; str "patient"]).
  reflexivity.
Defined.

Lemma int32_of_in_range id : in_int32 id = true -> int32_of id = Some id.
Proof.
  unfold in_int32, int32_of. intros H. apply andb_true_iff in H as [H1 H2].
  apply Z.leb_le in H1. apply Z.ltb_lt in H2.
  replace ((- 2 ^ 63 <=? id) && (id <? 2 ^ 63))%Z with true.
  - f_equal. rewrite Z.mod_small; lia.
  - symmetry. apply andb_true_iff. split; [apply Z.leb_le|apply Z.ltb_lt]; lia.
Qed.

Lemma asarray_int32_in_range ids :
  forallb in_int32 ids = true -> asarray_int32 ids = Some ids.
Proof.
  induction ids as [|id rest IH]; [reflexivity|]. cbn [forallb]. intros H.
  apply andb_true_iff in H as [Hid Hrest]. cbn [asarray_int32].
  now rewrite (int32_of_in_range id Hid), (IH Hrest).
Qed.

Lemma forallb_skipn (A : Type) (f : A -> bool) : forall n l,
  forallb f l = true -> forallb f (skipn n l) = true.
Proof.
  induction n as [|n IH]; intros l H; [exact H|].
  destruct l as [|a l]; [reflexivity|]. cbn [forallb skipn] in *.
  apply andb_true_iff in H as [_ H]. now apply IH.
Qed.

Lemma pad_row_value m s :
  forallb in_int32 s = true ->
  pad_row (S m) s
  = Some (if Nat.leb (length s) (S m)
          then s ++ repeat 0%Z (S m - length s)
          else skipn (length s - S m) s).
Proof.
  intros Hs. destruct s as [|x s]; [reflexivity|].
  unfold pad_row, slice_last. cbn [Nat.eqb].
  set (l := x :: s) in *.
  rewrite asarray_int32_in_range by now apply forallb_skipn.
  rewrite length_skipn.
  replace (Nat.leb (length l - (length l - S m)) (S m)) with true
    by (symmetry; apply Nat.leb_le; lia).
  f_equal. destruct (Nat.leb_spec (length l) (S m)) as [Hle|Hgt].
  - replace (length l - S m) with 0 by lia. cbn [skipn].
    now rewrite Nat.sub_0_r.
  - replace (S m - (length l - (length l - S m))) with 0 by lia.
    apply app_nil_r.
Qed.

(** X27. With a positive [maxlen] and ids that fit in int32, a row of
    [pad_sequences] with [padding="post"] has [maxlen] entries: a
    sequence of at most [maxlen] ids in full, followed by zeros, and of
    a longer sequence its last [maxlen] ids, so that what is cut off is
    the start of the sequence, the classification token first. *)
Theorem pad_row_content (m : nat) (s : list Z) :
  forallb in_int32 s = true ->
  pad_row (S m) s
  = Some (if Nat.leb (length s) (S m)
          then s ++ repeat 0%Z (S m - length s)
          else skipn (length s - S m) s)
  /\ option_map (@length Z) (pad_row (S m) s) = Some (S m).
Proof.
  intros Hs. split; [now apply pad_row_value|].
  rewrite pad_row_value by exact Hs. cbn [option_map].
  f_equal. destruct (Nat.leb_spec (length s) (S m)) as [Hle|Hgt].
  - rewrite length_app, repeat_length. lia.
  - rewrite length_skipn. lia.
Qed.

Lemma pad_row_content_witness :
  pad_row 3 [101; 7; 8; 9; 102]%Z = Some [8; 9; 102]%Z
  /\ pad_row 3 [101; 102]%Z = Some [101; 102; 0]%Z.
Proof.
  split.
  - apply (proj1 (pad_row_content 2 [101; 7; 8; 9; 102]%Z eq_refl)).
  - apply (proj1 (pad_row_content 2 [101; 102]%Z eq_refl)).
Defined.

(** X28. With a positive [maxlen] and ids that fit in int32,
    [pad_sequences] does not fail and returns one row of [maxlen]
    entries for every sequence, the empty sequence included. *)
Theorem pad_sequences_shape (m : nat) (sequences : list (list Z)) :
  forallb (forallb in_int32) sequences = true ->
  exists rows,
    pad_sequences sequences (S m) = Some rows
    /\ length rows = length sequences
    /\ forallb (fun row => Nat.eqb (length row) (S m)) rows = true.
Proof.
  induction sequences as [|s rest IH]; intros H.
  - exists []. repeat split.
  - cbn [forallb] in H. apply andb_true_iff in H as [Hs Hrest].
    destruct (IH Hrest) as (rows & E & Hl & Hr).
    eexists. cbn [pad_sequences]. rewrite (pad_row_value m s Hs), E.
    split; [reflexivity|]. cbn [length forallb]. rewrite Hl, Hr.
    split; [reflexivity|]. rewrite andb_true_r. apply Nat.eqb_eq.
    destruct (Nat.leb_spec (length s) (S m)) as [Hle|Hgt].
    + rewrite length_app, repeat_length. lia.
    + rewrite length_skipn. lia.
Qed.

Lemma pad_sequences_shape_witness :
  exists rows,
    pad_sequences [[101; 102]%Z; []; [1; 2; 3; 4]%Z] 3 = Some rows
    /\ length rows = 3
    /\ forallb (fun row => Nat.eqb (length row) 3) rows = true.
Proof.
  apply (pad_sequences_shape 2 [[101; 102]%Z; []; [1; 2; 3; 4]%Z]).
  reflexivity.
Defined.

Lemma map_repeat (A B : Type) (f : A -> B) a n :
  map f (repeat a n) = repeat (f a) n.
Proof. induction n as [|n IH]; [reflexivity|]. cbn. now rewrite IH. Qed.

(** X29. For a sequence of at most [maxlen] ids that fit in int32, none
    of them 0, the mask of the padded row is [True] on the positions of
    the ids and [False] on the padding. *)
Theorem token_mask_of_padded (m : nat) (s : list Z) :
  forallb in_int32 s = true ->
  Nat.leb (length s) (S m) = true ->
  forallb (fun id => negb (id =? 0)%Z) s = true ->
  option_map (fun row => token_mask [row]) (pad_row (S m) s)
  = Some [repeat true (length s) ++ repeat false (S m - length s)].
Proof.
  intros Hs Hlen Hnz. rewrite pad_row_value, Hlen by exact Hs.
  cbn [option_map token_mask map].
  rewrite map_app, map_repeat. cbn [Z.eqb negb]. do 3 f_equal.
  clear Hlen Hs. induction s as [|x s IH]; [reflexivity|].
  cbn [forallb] in Hnz. apply andb_true_iff in Hnz as [Hx Hnz].
  cbn [map length repeat]. now rewrite Hx, IH.
Qed.

Lemma token_mask_of_padded_witness :
  option_map (fun row => token_mask [row]) (pad_row 60 token_ids)
  = Some [repeat true 48 ++ repeat false 12].
Proof. apply (token_mask_of_padded 59 token_ids); reflexivity. Defined.

(** An id that does not fit in int32 is stored modulo 2^32: 2^32 is
    stored as 0 and its position is masked like padding. *)
Example token_mask_of_wrapped_id :
  pad_row 2 [4294967296%Z] = Some [0; 0]%Z
  /\ pad_row 2 [2147483648%Z] = Some [(-2147483648)%Z; 0%Z].
Proof. split; reflexivity. Qed.

(** The padded ids the notebook writes out are the ids it pads. *)
Example pad_sequences_token_ids :
  pad_sequences [token_ids] 60 = Some [padded_token_ids].
Proof. reflexivity. Qed.
